(** * Sevens session server: a shallow embedding of [server.js]

    The game core of the server (deck construction and shuffle, dealing,
    legal moves, turn advancement, end-of-game detection and the message
    handlers of the WebSocket connection) is transcribed as executable
    functions over explicit state.  JavaScript objects used as maps are
    [gmap]s, arrays are lists read with [!!] and written with [<[_:=_]>],
    an uncaught [TypeError] is the result [None], and everything the
    handlers send is collected in a list of (recipient, message) pairs. *)

From stdpp Require Import gmap strings list.
From Stdlib Require Import ZArith Lia.

Local Open Scope string_scope.
Local Open Scope list_scope.
Local Open Scope nat_scope.

#[local] Set Warnings "-clear-no-such-hyp".

(** ** Data model *)

(** [{ suit: s, value: v }].  Suits are the strings of the source; a
    value is a JavaScript number, here an integer. *)
Record Card := mkCard { suit : string; value : Z }.

#[global] Instance Card_eq_dec : EqDecision Card.
Proof. solve_decision. Defined.

(** [{ low: 7, high: h }], the object stored under a suit of the board
    once its 7 was placed. *)
Record SuitRun := mkRun { low : Z; high : Z }.

#[global] Instance SuitRun_eq_dec : EqDecision SuitRun.
Proof. solve_decision. Defined.

(** The board object.  A suit whose entry is [null] (or that has no
    entry at all, which [!b] cannot tell apart) has no binding. *)
Abbreviation Board := (gmap string SuitRun).

(** A seated player.  The [ws] field of the source is the connection
    that created the player; [id] is that connection's [clientId], so the
    connection is identified by [id]. *)
Record Player := mkPlayer {
  id : string;
  name : string;
  hand : list Card;
  passed : bool;
  isOut : bool
}.

Record Room := mkRoom {
  players : list Player;
  deck : option (list Card);
  board : Board;
  started : bool;
  turn : nat;
  gameOver : bool;
  loser : option string
}.

(** ** Deck *)

Definition suits : list string := ["♠"; "♥"; "♦"; "♣"].

(** The two nested [for] loops of [createDeck]:
    [for (let s of suits) for (let v = 7; v <= 14; v++) deck.push(..)]. *)
Definition build_deck : list Card :=
  s ← suits; v ← seqZ 7 8; [mkCard s v].

(** One result of [Math.random()]: a number in the half-open interval
    from 0 to 1, kept as a fraction [num / den] with [num < den] (a float
    is such a fraction). *)
Record Draw := mkDraw {
  num : nat;
  den : nat;
  draw_lt : (num <? den)%nat = true
}.

(** [Math.floor(r * n)], the product taken exactly.  The rounding of the
    floating-point product can change which index a given [r] yields, not
    the indices that can be drawn: for [n] up to 32 they are 0 to [n - 1]
    either way, and [num := j], [den := n] draws [j]. *)
Definition floor_mul (r : Draw) (n : nat) : nat := (num r * n) `div` den r.

(** [[deck[i], deck[j]] = [deck[j], deck[i]]]: the right-hand side is
    read first, then [deck[i]] and [deck[j]] are written in this order.
    Both indices are inside the array whenever the shuffle calls it
    ([swap_in_range] below), so the last branch is never taken. *)
Definition swap (deck : list Card) (i j : nat) : list Card :=
  match deck !! j, deck !! i with
  | Some dj, Some di => <[j := di]> (<[i := dj]> deck)
  | _, _ => deck
  end.

(** [for (let i = deck.length - 1; i > 0; i--) { j = ...; swap }].
    [k] counts the calls to [Math.random] made so far. *)
Fixpoint shuffle_loop (rnd : nat → Draw) (k i : nat) (deck : list Card)
  : list Card :=
  match i with
  | 0 => deck
  | S i' => shuffle_loop rnd (S k) i' (swap deck i (floor_mul (rnd k) (i + 1)))
  end.

Definition createDeck (rnd : nat → Draw) : list Card :=
  shuffle_loop rnd 0 (length build_deck - 1) build_deck.
Arguments createDeck : simpl never.

(** ** Board *)

(** [initBoard]: every suit is [null]. *)
Definition initBoard : Board := ∅.

(** One iteration of the loop of [getValidMoves]; [b] is
    [board[card.suit]]. *)
Definition valid_step (board : Board) (moves : list Card) (card : Card)
  : list Card :=
  let b := board !! suit card in
  if bool_decide (value card = 7%Z) then
    match b with
    | None => moves ++ [card]
    | Some _ => moves
    end
  else
    match b with
    | Some b =>
        if bool_decide (value card = high b + 1)%Z && bool_decide (high b < 14)%Z
        then moves ++ [card] else moves
    | None => moves
    end.

Definition getValidMoves (hand : list Card) (board : Board) : list Card :=
  foldl (valid_step board) [] hand.

(** The test [c.suit === card.suit && c.value === card.value] used by the
    handlers to look a card up. *)
Definition same_card (card c : Card) : bool :=
  bool_decide (suit c = suit card) && bool_decide (value c = value card).

(** ** Dealer *)

(** One callback of [deck.forEach((card, i) => hands[i % n].push(card))].
    [hands[i % n]] is [undefined] only when there are no hands at all, and
    the [push] then throws. *)
Definition deal_step (n : nat) (acc : option (list (list Card)))
    (ic : nat * Card) : option (list (list Card)) :=
  hands ← acc;
  h ← hands !! (ic.1 `mod` n);
  Some (<[ic.1 `mod` n := h ++ [ic.2]]> hands).

Definition dealCards (deck : list Card) (numPlayers : nat)
  : option (list (list Card)) :=
  foldl (deal_step numPlayers) (Some (replicate numPlayers [])) (imap pair deck).

(** ** Messages and environment *)

(** An entry of the [players] array of a [game_state] message. *)
Record PlayerView := mkView {
  pv_id : string;
  pv_name : string;
  pv_cardCount : nat;
  pv_passed : bool;
  pv_isOut : bool
}.

Record GameState := mkGameState {
  gs_board : Board;
  gs_players : list PlayerView;
  gs_myHand : list Card;
  gs_turn : nat;
  gs_currentPlayerId : option string;
  gs_validMoves : list Card;
  gs_gameOver : bool;
  gs_loser : option string;
  gs_started : bool
}.

(** What the server sends, by the [type] field of the object. *)
Inductive ServerMsg :=
  | room_created (roomId playerId : string)
  | joined_room (roomId playerId : string)
  | player_list (ps : list (string * string))
  | error (msg : string)
  | game_started
  | player_out (playerName : string)
  | game_state (gs : GameState).

(** What a client sends, by its [type] field; [other_type] stands for a
    parsed message of any other type, which no branch handles. *)
Inductive ClientMsg :=
  | create_room (name : string)
  | join_room (roomId name : string)
  | start_game
  | play_card (card : Card)
  | pass
  | restart
  | other_type.

(** A sent message with the [clientId] of the connection it goes to. *)
Abbreviation Out := (string * ServerMsg)%type.

(** What a handler reads from outside the rooms: the [readyState] of
    every connection, the successive results of [Math.random()] inside
    [createDeck], and the string that
    [Math.random().toString(36).substr(2, 6).toUpperCase()] evaluates to
    in [create_room] (the conversion of a float to base 36 is not
    modelled; the generator may return any such string, and may return the
    same one twice). *)
Record Env := mkEnv {
  readyState : string → nat;
  random : nat → Draw;
  random_roomId : string
}.

(** The [rooms] object, and the [roomId] field of every connection
    ([ws.roomId], unset until the connection creates or joins a room). *)
Record Server := mkServer {
  rooms : gmap string Room;
  ws_roomId : gmap string string
}.

Definition err_no_room : string := "الغرفة غير موجودة".
Definition err_started : string := "اللعبة بدأت بالفعل".
Definition err_full : string := "الغرفة ممتلئة".
Definition err_host_only : string := "فقط المضيف يمكنه البدء".
Definition err_two_players : string := "يلزم لاعبان على الأقل".
Definition err_invalid_move : string := "حركة غير صالحة".
Definition err_cannot_pass : string := "لا يمكنك التمرير، لديك حركات صالحة".
Definition last_player : string := "آخر لاعب".

(** [broadcast]: [p.ws] is always set, so only [readyState] decides. *)
Definition broadcast (env : Env) (room : Room) (msg : ServerMsg) : list Out :=
  (λ p, (id p, msg)) <$> filter (λ p, readyState env (id p) = 1) (players room).

Definition view (pl : Player) : PlayerView :=
  mkView (id pl) (name pl) (length (hand pl)) (passed pl) (isOut pl).

(** [room.players[room.turn]?.id]. *)
Definition currentPlayerId (room : Room) : option string :=
  id <$> players room !! turn room.

Definition state_for (room : Room) (p : Player) : GameState :=
  let validMoves :=
    if started room && bool_decide (currentPlayerId room = Some (id p))
    then getValidMoves (hand p) (board room) else [] in
  mkGameState (board room) (view <$> players room) (hand p) (turn room)
    (currentPlayerId room) validMoves (gameOver room) (loser room)
    (started room).

Definition sendGameState (env : Env) (room : Room) : list Out :=
  (λ p, (id p, game_state (state_for room p)))
    <$> filter (λ p, readyState env (id p) = 1) (players room).

Definition names (room : Room) : ServerMsg :=
  player_list ((λ p, (id p, name p)) <$> players room).

(** ** Turn manager *)

Definition set_turn (room : Room) (t : nat) : Room :=
  mkRoom (players room) (deck room) (board room) (started room) t
    (gameOver room) (loser room).

(** How a loop run with a bound on its iterations ends: with a value,
    with an uncaught [TypeError], or with the bound used up. *)
Inductive Loop (A : Type) :=
  | Done (a : A)
  | Throw
  | OutOfFuel.
Arguments Done {A} a.
Arguments Throw {A}.
Arguments OutOfFuel {A}.

(** The [while] loop of [nextTurn], from the values [next] and [count]
    have when its condition is evaluated; the result is the final pair
    ([next], [count]).  Reading [.isOut] of [room.players[next]] throws
    when no player sits at [next]. *)
Fixpoint nextTurn_loop (fuel : nat) (ps : list Player) (next count : nat)
  : Loop (nat * nat) :=
  match fuel with
  | 0 => OutOfFuel
  | S fuel' =>
      match ps !! next with
      | None => Throw
      | Some p =>
          if isOut p && bool_decide (count < length ps)
          then nextTurn_loop fuel' ps ((next + 1) `mod` length ps) (S count)
          else Done (next, count)
      end
  end.

(** [nextTurn].  The condition of the loop is evaluated at most
    [players.length + 1] times ([nextTurn_loop_fuel] below), which is the
    fuel given here. *)
Definition nextTurn (room : Room) : option Room :=
  let ps := players room in
  match nextTurn_loop (S (length ps)) ps ((turn room + 1) `mod` length ps) 0 with
  | Done (next, _) => Some (set_turn room next)
  | _ => None
  end.

(** [activePlayers[0]?.name || 'آخر لاعب']: the name unless there is no
    such player or the name is falsy, which for a string means empty. *)
Definition loser_name (activePlayers : list Player) : string :=
  match head activePlayers with
  | Some p => if bool_decide (name p = "") then last_player else name p
  | None => last_player
  end.

(** [checkGameOver]: the room after the call and the returned flag. *)
Definition checkGameOver (room : Room) : Room * bool :=
  let activePlayers := filter (λ p, isOut p = false) (players room) in
  if bool_decide (length activePlayers ≤ 1) then
    (mkRoom (players room) (deck room) (board room) (started room)
       (turn room) true (Some (loser_name activePlayers)), true)
  else (room, false).

(** ** Room handlers *)

(** [c.suit === '♠' && c.value === 7] somewhere in the hand. *)
Definition holds_first_card (p : Player) : bool :=
  existsb (λ c, bool_decide (suit c = "♠") && bool_decide (value c = 7%Z))
    (hand p).

(** The loop that looks for the seat going first; seat 0 when nobody
    holds the card. *)
Definition firstPlayer (ps : list Player) : nat :=
  default 0 (fst <$> list_find (λ p, holds_first_card p = true) ps).

(** The deal shared, statement by statement, by the [start_game] and the
    [restart] branches: new deck, new hands, flags cleared, board emptied,
    turn given to the holder of the 7 of spades.  [hands] has one entry per
    player, so [hands[i]] is always defined. *)
Definition deal (env : Env) (room : Room) : option Room :=
  let deck := createDeck (random env) in
  hands ← dealCards deck (length (players room));
  let ps := imap (λ i p, mkPlayer (id p) (name p) (default [] (hands !! i))
                           false false) (players room) in
  Some (mkRoom ps (Some deck) initBoard true (firstPlayer ps) false None).

(** A handler returns the new room and what it sent, or [None] when it
    throws. *)
Definition start_game_room (env : Env) (clientId : string) (room : Room)
  : option (Room * list Out) :=
  host ← players room !! 0;
  if bool_decide (id host ≠ clientId) then
    Some (room, [(clientId, error err_host_only)])
  else if bool_decide (length (players room) < 2) then
    Some (room, [(clientId, error err_two_players)])
  else
    room' ← deal env room;
    Some (room', broadcast env room' game_started ++ sendGameState env room').

Definition restart_room (env : Env) (clientId : string) (room : Room)
  : option (Room * list Out) :=
  host ← players room !! 0;
  if bool_decide (id host ≠ clientId) then Some (room, [])
  else
    room' ← deal env room;
    Some (room', broadcast env room' game_started ++ sendGameState env room').

(** The board after an accepted card.  For a card other than a 7 the
    suit has a run whenever the card was accepted; reading [b.high] of a
    [null] would throw. *)
Definition place (board : Board) (card : Card) : option Board :=
  if bool_decide (value card = 7%Z) then
    Some (<[suit card := mkRun 7 7]> board)
  else
    b ← board !! suit card;
    if bool_decide (value card = high b + 1)%Z
    then Some (<[suit card := mkRun (low b) (value card)]> board)
    else Some board.

(** The rest of [play_card] once the room is updated: [nextTurn], then
    [sendGameState]. *)
Definition advance (env : Env) (room : Room) (sent : list Out)
  : option (Room * list Out) :=
  room' ← nextTurn room;
  Some (room', sent ++ sendGameState env room').

Definition play_card_room (env : Env) (clientId : string) (card : Card)
    (room : Room) : option (Room * list Out) :=
  if negb (started room) || gameOver room then Some (room, []) else
  match players room !! turn room with
  | None => Some (room, [])
  | Some player =>
    if bool_decide (id player ≠ clientId) then Some (room, []) else
    let validMoves := getValidMoves (hand player) (board room) in
    match find (same_card card) validMoves with
    | None => Some (room, [(clientId, error err_invalid_move)])
    | Some _ =>
      let hand' := filter (λ c, same_card card c = false) (hand player) in
      board' ← place (board room) card;
      let seat p := mkRoom (<[turn room := p]> (players room)) (deck room)
                      board' (started room) (turn room) (gameOver room)
                      (loser room) in
      if bool_decide (length hand' = 0) then
        let room1 := seat (mkPlayer (id player) (name player) hand' false true) in
        let sent := broadcast env room1 (player_out (name player)) in
        let '(room2, over) := checkGameOver room1 in
        if over then Some (room2, sent ++ sendGameState env room2)
        else advance env room2 sent
      else
        advance env
          (seat (mkPlayer (id player) (name player) hand' false (isOut player)))
          []
    end
  end.

Definition pass_room (env : Env) (clientId : string) (room : Room)
  : option (Room * list Out) :=
  if negb (started room) || gameOver room then Some (room, []) else
  match players room !! turn room with
  | None => Some (room, [])
  | Some player =>
    if bool_decide (id player ≠ clientId) then Some (room, []) else
    let validMoves := getValidMoves (hand player) (board room) in
    if bool_decide (0 < length validMoves) then
      Some (room, [(clientId, error err_cannot_pass)])
    else
      advance env
        (mkRoom (<[turn room := mkPlayer (id player) (name player)
                                  (hand player) true (isOut player)]>
                   (players room))
           (deck room) (board room) (started room) (turn room)
           (gameOver room) (loser room))
        []
  end.

(** ** Registry and dispatch *)

(** [rooms[ws.roomId]] for the connection [clientId], with its key. *)
Definition room_of (st : Server) (clientId : string) : option (string * Room) :=
  rid ← ws_roomId st !! clientId;
  room ← rooms st !! rid;
  Some (rid, room).

(** A room handler run on the room of the connection; the handlers
    change the room object in place, so the registry sees the result. *)
Definition in_room (st : Server) (clientId : string)
    (h : Room → option (Room * list Out)) : option (Server * list Out) :=
  match room_of st clientId with
  | None => Some (st, [])
  | Some (rid, room) =>
      '(room', sent) ← h room;
      Some (mkServer (<[rid := room']> (rooms st)) (ws_roomId st), sent)
  end.

Definition new_player (clientId name : string) : Player :=
  mkPlayer clientId name [] false false.

(** The [create_room] branch: the room is stored under the generated
    identifier, whatever [rooms] holds there. *)
Definition create_room_handler (env : Env) (st : Server)
    (clientId name : string) : Server * list Out :=
  let roomId := random_roomId env in
  let room := mkRoom [new_player clientId name] None initBoard false 0 false
                None in
  (mkServer (<[roomId := room]> (rooms st)) (<[clientId := roomId]> (ws_roomId st)),
   (clientId, room_created roomId clientId) :: broadcast env room (names room)).

Definition join_room_handler (env : Env) (st : Server)
    (clientId roomId name : string) : Server * list Out :=
  match rooms st !! roomId with
  | None => (st, [(clientId, error err_no_room)])
  | Some room =>
      if started room then (st, [(clientId, error err_started)])
      else if bool_decide (4 ≤ length (players room)) then
        (st, [(clientId, error err_full)])
      else
        let room' := mkRoom (players room ++ [new_player clientId name])
                       (deck room) (board room) (started room) (turn room)
                       (gameOver room) (loser room) in
        (mkServer (<[roomId := room']> (rooms st))
           (<[clientId := roomId]> (ws_roomId st)),
         (clientId, joined_room roomId clientId)
           :: broadcast env room' (names room'))
  end.

(** The [message] handler of the connection [clientId], after the
    message was parsed. *)
Definition on_message (env : Env) (st : Server) (clientId : string)
    (msg : ClientMsg) : option (Server * list Out) :=
  match msg with
  | create_room name => Some (create_room_handler env st clientId name)
  | join_room roomId name => Some (join_room_handler env st clientId roomId name)
  | start_game => in_room st clientId (start_game_room env clientId)
  | play_card card => in_room st clientId (play_card_room env clientId card)
  | pass => in_room st clientId (pass_room env clientId)
  | restart => in_room st clientId (restart_room env clientId)
  | other_type => Some (st, [])
  end.

(** The [close] handler of the connection [clientId]. *)
Definition on_close (env : Env) (st : Server) (clientId : string)
  : Server * list Out :=
  match room_of st clientId with
  | None => (st, [])
  | Some (rid, room) =>
      let ps := filter (λ p, id p ≠ clientId) (players room) in
      if bool_decide (length ps = 0) then
        (mkServer (delete rid (rooms st)) (ws_roomId st), [])
      else
        let room1 := mkRoom ps (deck room) (board room) (started room)
                       (turn room) (gameOver room) (loser room) in
        let sent := broadcast env room1 (names room1) in
        if started room1 && negb (gameOver room1) then
          let room2 := if bool_decide (length ps ≤ turn room1)
                       then set_turn room1 0 else room1 in
          (mkServer (<[rid := room2]> (rooms st)) (ws_roomId st),
           sent ++ sendGameState env room2)
        else (mkServer (<[rid := room1]> (rooms st)) (ws_roomId st), sent)
  end.

(** What reaches the server: a message of a connection, handled in the
    environment of that moment, or the end of a connection. *)
Inductive Event :=
  | Message (env : Env) (clientId : string) (msg : ClientMsg)
  | Close (env : Env) (clientId : string).

Definition step (st : Server) (e : Event) : option (Server * list Out) :=
  match e with
  | Message env clientId msg => on_message env st clientId msg
  | Close env clientId => Some (on_close env st clientId)
  end.

(** The events handled one after the other; a handler that throws ends
    the run. *)
Fixpoint run (st : Server) (es : list Event) : option (Server * list Out) :=
  match es with
  | [] => Some (st, [])
  | e :: es' =>
      '(st1, sent1) ← step st e;
      '(st2, sent2) ← run st1 es';
      Some (st2, sent1 ++ sent2)
  end.

(** * Vocabulary of the properties *)

(** When [getValidMoves] keeps a card: a 7 on a suit without a run, or
    the card just above the high of the run, the high being below 14. *)
Definition legal (board : Board) (c : Card) : Prop :=
  (value c = 7 ∧ board !! suit c = None)%Z ∨
  (value c ≠ 7 ∧
   ∃ b, board !! suit c = Some b ∧ high b = value c - 1 ∧ value c - 1 < 14)%Z.

(** [room'] is [room] but for the turn: [nextTurn] writes [room.turn]
    and nothing else. *)
Definition only_turn_changed (room room' : Room) : Prop :=
  players room' = players room ∧ deck room' = deck room ∧
  board room' = board room ∧ started room' = started room ∧
  gameOver room' = gameOver room ∧ loser room' = loser room.

(** The players [checkGameOver] counts. *)
Definition active (room : Room) : list Player :=
  filter (λ p, isOut p = false) (players room).

(** C6 as the specification words it: the game is over exactly when at
    most one player is not eliminated, and the loser is then the name of
    that player. *)
Definition loser_is_remaining_player (room : Room) : Prop :=
  ((checkGameOver room).2 = true ↔ length (active room) ≤ 1) ∧
  ∀ p, active room = [p] → loser (checkGameOver room).1 = Some (name p).

(** The cards of the deck whose index is [i] modulo [n], in the order of
    the deck: what the round-robin gives seat [i]. *)
Definition nth_hand (deck : list Card) (n i : nat) : list Card :=
  snd <$> filter (λ ic, ic.1 `mod` n = i) (imap pair deck).

(** What a room is after a deal of the deck [d] to the players of
    [room]. *)
Definition dealt (d : list Card) (room room' : Room) : Prop :=
  deck room' = Some d ∧
  board room' = initBoard ∧
  started room' = true ∧ gameOver room' = false ∧ loser room' = None ∧
  turn room' = firstPlayer (players room') ∧
  length (players room') = length (players room) ∧
  ∀ i p, players room !! i = Some p →
    players room' !! i
    = Some (mkPlayer (id p) (name p) (nth_hand d (length (players room)) i)
              false false).

(** Every run of [b1] is still there in [b2], with a high at least as
    large. *)
Definition board_le (b1 b2 : Board) : Prop :=
  ∀ s r, b1 !! s = Some r → ∃ r', b2 !! s = Some r' ∧ (high r ≤ high r')%Z.








(** The room [create_room] stores. *)
Definition fresh_room (clientId name : string) : Room :=
  mkRoom [new_player clientId name] None initBoard false 0 false None.

(** C4 as the specification words it: creating a room leaves every room
    of the registry as it was. *)
Definition create_room_keeps_rooms (env : Env) (st : Server)
    (clientId name : string) : Prop :=
  ∀ rid room, rooms st !! rid = Some room →
    rooms (create_room_handler env st clientId name).1 !! rid = Some room.

(** C2 and C3 as the specification words them: the command fails, an
    error goes to the sender and to nobody else, the state is as
    before. *)
Definition rejected_with_error (env : Env) (st : Server) (clientId : string)
    (msg : ClientMsg) : Prop :=
  ∃ text, on_message env st clientId msg
          = Some (st, [(clientId, error text)]).

(** The room stored under [rid] once a handler has returned. *)
Definition room_after (r : option (Server * list Out)) (rid : string)
  : option Room :=
  st ← fst <$> r; rooms st !! rid.

(** All the cards held in a room, seat after seat. *)
Definition all_hands (room : Room) : list Card :=
  concat (hand <$> players room).

(** A card of the pack: one of the four suits, a rank from 7 to 14. *)
Definition canonical (c : Card) : Prop :=
  suit c ∈ suits ∧ (7 ≤ value c ≤ 14)%Z.

(** What holds of every room the server can get into.  There is somebody
    seated and no more than four; no card is held twice, every card held
    is a card of the pack; a run starts at 7, on one of the four suits,
    and ends between 7 and 14; every card held is above the run of its
    suit; a room that was never started is as it was created, but for who
    sits in it; while a game is on the turn is at a seat; once started a
    player is out exactly when the hand is empty. *)
Record room_inv (room : Room) : Prop := {
  inv_seated : players room ≠ [];
  inv_seats : length (players room) ≤ 4;
  inv_nodup : NoDup (all_hands room);
  inv_cards : ∀ c, c ∈ all_hands room → canonical c;
  inv_board : ∀ s r, board room !! s = Some r →
                s ∈ suits ∧ low r = 7%Z ∧ (7 ≤ high r ≤ 14)%Z;
  inv_above : ∀ c r, c ∈ all_hands room → board room !! suit c = Some r →
                (high r < value c)%Z;
  inv_lobby : started room = false →
                turn room = 0 ∧ board room = initBoard ∧
                all_hands room = [] ∧ gameOver room = false;
  inv_turn : started room = true → gameOver room = false →
               turn room < length (players room);
  inv_out : started room = true →
              ∀ p, p ∈ players room → (isOut p = true ↔ hand p = []);
  inv_over : gameOver room = true → length (active room) ≤ 1
}.

Definition server_inv (st : Server) : Prop :=
  ∀ rid room, rooms st !! rid = Some room → room_inv room.

(** The server when it comes up: no room, no connection. *)
Definition server0 : Server := mkServer ∅ ∅.

(** The states the server gets into, by any events handled from its
    start. *)
Definition reachable (st : Server) : Prop :=
  ∃ es sent, run server0 es = Some (st, sent).

(** The current player after an accepted card: the card is out of the
    hand, [passed] is cleared, and the player is out when no card is
    left. *)
Definition played (player : Player) (card : Card) : Player :=
  let hand' := filter (λ c, same_card card c = false) (hand player) in
  mkPlayer (id player) (name player) hand' false
    (bool_decide (hand' = []) || isOut player).

(** The room after an accepted card, before the end of the game is
    looked at and the turn moved. *)
Definition after_card (room : Room) (player : Player) (card : Card)
    (board' : Board) : Room :=
  mkRoom (<[turn room := played player card]> (players room)) (deck room)
    board' (started room) (turn room) (gameOver room) (loser room).

(** The room after an accepted pass, before the turn is moved. *)
Definition after_pass (room : Room) (player : Player) : Room :=
  mkRoom (<[turn room := mkPlayer (id player) (name player) (hand player)
                           true (isOut player)]> (players room))
    (deck room) (board room) (started room) (turn room) (gameOver room)
    (loser room).

(** The names of the properties every plain object inherits. *)
Definition inherited : list string :=
  ["constructor"; "__defineGetter__"; "__defineSetter__"; "hasOwnProperty";
   "__lookupGetter__"; "__lookupSetter__"; "isPrototypeOf";
   "propertyIsEnumerable"; "toString"; "valueOf"; "__proto__";
   "toLocaleString"].

(** [rooms] is a plain object, so [rooms[msg.roomId]] finds an inherited
    property, not a room, when the identifier of a [join_room] is such a
    name: the handler then reads [players.length] of something that has
    no players and throws.  The registry of the model has no such
    entries; an event is plain when it does not ask for one, and when the
    identifier generated for a new room is not such a name either (the
    generator only yields digits and capital letters). *)
Definition plain_ids (e : Event) : Prop :=
  match e with
  | Message _ _ (join_room roomId _) => roomId ∉ inherited
  | Message env _ (create_room _) => random_roomId env ∉ inherited
  | _ => True
  end.

(** What holds besides of a room nobody has left since the cards were
    dealt: while the game is on the turn is at a player who is not out,
    and every card of the pack is in a hand or on the table. *)
Definition game_inv (room : Room) : Prop :=
  (started room = true → gameOver room = false →
   ∃ p, players room !! turn room = Some p ∧ isOut p = false) ∧
  (started room = true →
   ∀ c, canonical c →
     c ∈ all_hands room ∨
     ∃ r, board room !! suit c = Some r ∧ (value c ≤ high r)%Z).

Definition is_message (e : Event) : Prop :=
  match e with
  | Message _ _ _ => True
  | Close _ _ => False
  end.

(** The states the server gets into as long as no connection ends. *)
Definition reachable_connected (st : Server) : Prop :=
  ∃ es sent, Forall is_message es ∧ run server0 es = Some (st, sent).

Definition server_game_inv (st : Server) : Prop :=
  ∀ rid room, rooms st !! rid = Some room → room_inv room ∧ game_inv room.

(** A room handler that sends an error sends it to the sender, sends
    nothing else and changes nothing. *)
Definition error_is_refusal (clientId : string)
    (h : Room → option (Room * list Out)) : Prop :=
  ∀ room room' sent c text,
    h room = Some (room', sent) → (c, error text) ∈ sent →
    room' = room ∧ sent = [(clientId, error text)].

(** * Scenarios *)

(** Two seats, the first player is out, the one left joined with an
    empty name. *)
Definition room_unnamed : Room :=
  mkRoom [mkPlayer "c1" "Ann" [] false true;
          mkPlayer "c2" "" [mkCard "♥" 9] false false]
    None initBoard true 0 false None.

(** [Math.random()] returning one half. *)
Definition draw_half : Draw := mkDraw 1 2 eq_refl.

(** Every connection open, every draw one half, and [K7QX2M] as the
    identifier generated for a new room. *)
Definition env0 : Env := mkEnv (λ _, 1) (λ _, draw_half) "K7QX2M".

Definition ann : Player :=
  mkPlayer "c1" "Ann" [mkCard "♠" 9; mkCard "♦" 7] false false.
Definition bob : Player :=
  mkPlayer "c2" "Bob" [mkCard "♥" 9; mkCard "♣" 8] false false.

(** A game in progress between Ann, the host, and Bob, whose turn it
    is; spades were opened and stand at 8. *)
Definition room_game : Room :=
  mkRoom [ann; bob] None (<["♠" := mkRun 7 8]> initBoard) true 1 false None.

Definition st_game : Server :=
  mkServer {["K7QX2M" := room_game]}
    (<["c1" := "K7QX2M"]> {["c2" := "K7QX2M"]}).

(** A room in the lobby with its creator alone. *)
Definition st_lobby : Server :=
  mkServer {["K7QX2M" := fresh_room "c1" "Ann"]} {["c1" := "K7QX2M"]}.



(** Three seats, the turn at seat 0, seat 1 eliminated. *)
Definition room_three : Room :=
  mkRoom [ann; mkPlayer "c2" "Bob" [] false true;
          mkPlayer "c3" "Eve" [mkCard "♥" 7] false false]
    None initBoard true 0 false None.

(** A session: Ann opens a room, Bob joins, Ann starts the game and
    opens spades, Bob opens diamonds. *)
Definition session : list Event :=
  [Message env0 "c1" (create_room "Ann");
   Message env0 "c2" (join_room "K7QX2M" "Bob");
   Message env0 "c1" start_game;
   Message env0 "c1" (play_card (mkCard "♠" 7));
   Message env0 "c2" (play_card (mkCard "♦" 7))].

(** The server and the room after the session. *)
Definition st_session : Server :=
  default server0 (fst <$> run server0 session).

Definition room_session : Room :=
  default (fresh_room "c1" "Ann") (rooms st_session !! "K7QX2M").

(** The player whose turn it is after the session. *)
Definition player_session : Player :=
  default ann (players room_session !! turn room_session).

(** A game played alone: Ann opens a room, restarts it without waiting
    for anybody, is dealt the whole pack and plays it suit by suit. *)
Definition solo_session : list Event :=
  [Message env0 "c1" (create_room "Ann"); Message env0 "c1" restart]
  ++ ((λ c, Message env0 "c1" (play_card c)) <$> build_deck).

Definition st_solo : Server :=
  default server0 (fst <$> run server0 solo_session).

Definition room_solo : Room :=
  default (fresh_room "c1" "Ann") (rooms st_solo !! "K7QX2M").

(** * Properties *)

(** ** Deck *)

Example deck_head :
  take 3 build_deck = [mkCard "♠" 7; mkCard "♠" 8; mkCard "♠" 9].
Proof. reflexivity. Qed.

Lemma floor_mul_le (r : Draw) (i : nat) : floor_mul r (i + 1) ≤ i.
Proof.
  unfold floor_mul. destruct r as [n d Hlt]; simpl.
  apply Nat.ltb_lt in Hlt.
  assert ((n * (i + 1)) `div` d < i + 1); [|lia].
  apply Nat.Div0.div_lt_upper_bound. nia.
Qed.

(** Every index below [n] is the floor of some draw times [n]. *)
Lemma floor_mul_reaches (n j : nat) : j < n → ∃ r, floor_mul r n = j.
Proof.
  intros Hj. apply Nat.ltb_lt in Hj as Hlt.
  exists (mkDraw j n Hlt). unfold floor_mul. simpl.
  apply Nat.div_mul. lia.
Qed.

(** The shuffle only swaps inside the array. *)
Lemma swap_in_range (deck : list Card) (i j : nat) :
  i < length deck → j ≤ i →
  ∃ di dj, deck !! i = Some di ∧ deck !! j = Some dj ∧
           swap deck i j = <[j := di]> (<[i := dj]> deck).
Proof.
  intros Hi Hj.
  destruct (lookup_lt_is_Some_2 deck i Hi) as [di Hdi].
  assert (j < length deck) as Hj' by lia.
  destruct (lookup_lt_is_Some_2 deck j Hj') as [dj Hdj].
  exists di, dj. unfold swap. by rewrite Hdi, Hdj.
Qed.

Lemma insert_cons_perm (l : list Card) (j : nat) (x y : Card) :
  l !! j = Some x → x :: <[j := y]> l ≡ₚ y :: l.
Proof.
  revert j. induction l as [|a l IH]; intros [|j] Hj; simplify_eq/=.
  - apply Permutation_swap.
  - rewrite (Permutation_swap a x), (IH j Hj). apply Permutation_swap.
Qed.

Lemma swap_perm (deck : list Card) (i j : nat) : swap deck i j ≡ₚ deck.
Proof.
  unfold swap.
  destruct (deck !! j) as [dj|] eqn:Hj; [|done].
  destruct (deck !! i) as [di|] eqn:Hi; [|done].
  revert i j Hi Hj.
  induction deck as [|a l IH]; intros [|i] [|j] Hi Hj; simplify_eq/=.
  - done.
  - by apply insert_cons_perm.
  - by apply insert_cons_perm.
  - f_equiv. by apply IH.
Qed.

Lemma shuffle_loop_perm rnd (i k : nat) (deck : list Card) :
  shuffle_loop rnd k i deck ≡ₚ deck.
Proof.
  revert k deck. induction i as [|i IH]; intros k deck; simpl; [done|].
  rewrite IH. apply swap_perm.
Qed.

Lemma build_deck_NoDup : NoDup build_deck.
Proof. apply (bool_decide_unpack _). by vm_compute. Qed.

Lemma build_deck_elem (c : Card) :
  c ∈ build_deck ↔ suit c ∈ suits ∧ (7 ≤ value c ≤ 14)%Z.
Proof.
  unfold build_deck. rewrite list_elem_of_bind. split.
  - intros (s & Hc & Hs). apply list_elem_of_bind in Hc as (v & Hc & Hv).
    apply list_elem_of_singleton in Hc as ->. simpl.
    apply elem_of_seqZ in Hv. split; [done|lia].
  - intros [Hs Hv]. exists (suit c). split; [|done].
    apply list_elem_of_bind. exists (value c). split.
    + destruct c. simpl. apply list_elem_of_singleton. done.
    + apply elem_of_seqZ. lia.
Qed.

(** C9.  Whatever [Math.random] returns, the deck of [createDeck] is a
    rearrangement of the 32 cards pushed by its first loop: it has 32
    cards, no card twice, and a card is in it exactly when its suit is one
    of the four suits and its value is between 7 and 14. *)
Theorem createDeck_permutation (rnd : nat → Draw) :
  createDeck rnd ≡ₚ build_deck ∧
  length (createDeck rnd) = 32 ∧
  NoDup (createDeck rnd) ∧
  ∀ c, c ∈ createDeck rnd ↔ suit c ∈ suits ∧ (7 ≤ value c ≤ 14)%Z.
Proof.
  assert (createDeck rnd ≡ₚ build_deck) as Hp by apply shuffle_loop_perm.
  split_and!; [done| | |].
  - by rewrite Hp.
  - rewrite Hp. apply build_deck_NoDup.
  - intros c. rewrite Hp. apply build_deck_elem.
Qed.

(** ** Legal moves *)

Lemma valid_step_elem board moves card c :
  c ∈ valid_step board moves card ↔ c ∈ moves ∨ (c = card ∧ legal board c).
Proof.
  unfold valid_step, legal.
  case_bool_decide as H7; destruct (board !! suit card) as [b|] eqn:Hb;
    repeat case_bool_decide; simpl;
    rewrite ?elem_of_app, ?list_elem_of_singleton;
    (split; [|naive_solver lia]); naive_solver lia.
Qed.

Lemma foldl_valid_step_elem board hand moves c :
  c ∈ foldl (valid_step board) moves hand ↔
  c ∈ moves ∨ (c ∈ hand ∧ legal board c).
Proof.
  revert moves. induction hand as [|card hand IH]; intros moves; simpl.
  - rewrite elem_of_nil. tauto.
  - rewrite IH, valid_step_elem, elem_of_cons. naive_solver.
Qed.

(** C1.  A card is among the legal moves exactly when it is in the hand
    and either it is a 7 and its suit has no run, or it is not a 7, its
    suit has a run whose high is the card's rank minus one, and that high
    is below 14: a 7 is legal iff the run is empty, a rank above 7 iff the
    run's high is the rank below, the ace on the king, and nothing on an
    ace. *)
Theorem getValidMoves_legal (hand : list Card) (board : Board) (c : Card) :
  c ∈ getValidMoves hand board ↔
  c ∈ hand ∧
  ((value c = 7 ∧ board !! suit c = None)%Z ∨
   (value c ≠ 7 ∧
    ∃ b, board !! suit c = Some b ∧ high b = value c - 1 ∧ value c - 1 < 14)%Z).
Proof.
  unfold getValidMoves. rewrite foldl_valid_step_elem, elem_of_nil.
  unfold legal. tauto.
Qed.

(** ** Turn manager *)

Section NextTurn.
Variable ps : list Player.
Let n := length ps.

Lemma seat_step (next k : nat) :
  ((next + 1) `mod` n + k) `mod` n = (next + S k) `mod` n.
Proof.
  rewrite Nat.Div0.add_mod_idemp_l. f_equal. lia.
Qed.

(** The loop entered at seat [next] with [count] steps done skips [k]
    eliminated seats and stops, either on a player still in the game or
    with [count] at the number of players. *)
Lemma nextTurn_loop_spec (fuel next count : nat) :
  next < n → count ≤ n → n - count < fuel →
  ∃ k, count + k ≤ n ∧
    nextTurn_loop fuel ps next count = Done ((next + k) `mod` n, count + k) ∧
    (∀ k', k' < k →
       ∃ q, ps !! ((next + k') `mod` n) = Some q ∧ isOut q = true) ∧
    ((∃ p, ps !! ((next + k) `mod` n) = Some p ∧ isOut p = false) ∨
     count + k = n).
Proof.
  revert next count.
  induction fuel as [|fuel IH]; intros next count Hnext Hcount Hfuel; [lia|].
  simpl. destruct (lookup_lt_is_Some_2 ps next Hnext) as [p Hp]. rewrite Hp.
  destruct (isOut p) eqn:Hout; simpl; [case_bool_decide as Hlt|].
  - destruct (IH ((next + 1) `mod` n) (S count)) as (k & Hk & Hrun & Hskip & Hstop).
    { apply Nat.mod_upper_bound. unfold n in *. lia. }
    { unfold n in *. lia. }
    { unfold n in *. lia. }
    exists (S k). fold n in Hrun |- *. rewrite seat_step in Hrun, Hstop.
    split_and!.
    + lia.
    + rewrite Hrun. do 2 f_equal. lia.
    + intros [|k'] Hk'.
      * exists p. rewrite Nat.add_0_r, Nat.mod_small by done. done.
      * rewrite <- seat_step. apply Hskip. lia.
    + destruct Hstop as [?|?]; [by left|right; lia].
  - exists 0. rewrite !Nat.add_0_r, Nat.mod_small by done.
    split_and!; [done|done|intros; lia|right; unfold n in *; lia].
  - exists 0. rewrite !Nat.add_0_r, Nat.mod_small by done.
    split_and!; [done|done|intros; lia|left; eauto].
Qed.

(** Seats [next], [next + 1], ... taken modulo the number of players
    reach every seat within one round. *)
Lemma seat_reached (next j : nat) :
  next < n → j < n → ∃ k, k < n ∧ (next + k) `mod` n = j.
Proof.
  intros Hnext Hj. destruct (decide (next ≤ j)).
  - exists (j - next). split; [lia|].
    replace (next + (j - next)) with j by lia. by apply Nat.mod_small.
  - exists (j + n - next). split; [lia|].
    replace (next + (j + n - next)) with (j + 1 * n) by lia.
    rewrite Nat.Div0.mod_add. by apply Nat.mod_small.
Qed.
End NextTurn.

(** The fuel of [nextTurn] is enough: with players seated the loop ends
    with a seat, and [nextTurn] throws only in a room without players. *)
Lemma nextTurn_loop_fuel (ps : list Player) (fuel t : nat) :
  ps ≠ [] → length ps < fuel →
  ∃ next count,
    nextTurn_loop fuel ps ((t + 1) `mod` length ps) 0 = Done (next, count) ∧
    count ≤ length ps ∧ next < length ps.
Proof.
  intros Hne Hfuel.
  assert (0 < length ps) as Hlen by (destruct ps; simpl; [done|lia]).
  destruct (nextTurn_loop_spec ps fuel ((t + 1) `mod` length ps) 0)
    as (k & Hk & Hrun & _); [by apply Nat.mod_upper_bound; lia|lia|lia|].
  eexists _, _. split; [exact Hrun|]. split; [lia|].
  apply Nat.mod_upper_bound. lia.
Qed.

(** More fuel does not change a result. *)
Lemma nextTurn_loop_more_fuel (ps : list Player) (fuel fuel' next count : nat)
    (r : nat * nat) :
  nextTurn_loop fuel ps next count = Done r → fuel ≤ fuel' →
  nextTurn_loop fuel' ps next count = Done r.
Proof.
  revert fuel' next count.
  induction fuel as [|fuel IH]; intros [|fuel'] next count Hrun Hle;
    simpl in *; try done; try lia.
  destruct (ps !! next) as [p|]; [|done].
  destruct (isOut p && bool_decide (count < length ps)); [|done].
  apply IH; [done|lia].
Qed.

(** C7.  In every room the loop of [nextTurn] ends after at most as many
    steps as there are players, also when everybody is eliminated (without
    any player the first test throws), and the room it leaves is the room
    it got with the turn set to the seat where the loop stopped.  When
    somebody is still in the game, [nextTurn] moves the turn from seat
    [turn] to seat [turn + 1 + k] modulo the number of players, where the
    [k] seats passed over are all eliminated and the player of the new
    seat is not; nothing but the turn changes. *)
Theorem nextTurn_skips_eliminated (room : Room) :
  let ps := players room in
  let start := (turn room + 1) `mod` length ps in
  (∀ fuel, length ps < fuel →
     (ps = [] ∧ nextTurn_loop fuel ps start 0 = Throw ∧
      nextTurn room = None) ∨
     (∃ next count room',
        nextTurn_loop fuel ps start 0 = Done (next, count) ∧
        count ≤ length ps ∧ next < length ps ∧
        nextTurn room = Some room' ∧ room' = set_turn room next ∧
        turn room' = next ∧ only_turn_changed room room')) ∧
  ((∃ p, p ∈ ps ∧ isOut p = false) →
   ∃ k p room', k < length ps ∧
     nextTurn room = Some room' ∧
     room' = set_turn room ((turn room + 1 + k) `mod` length ps) ∧
     turn room' = (turn room + 1 + k) `mod` length ps ∧
     only_turn_changed room room' ∧
     players room' !! turn room' = Some p ∧ isOut p = false ∧
     ∀ k', k' < k →
       ∃ q, ps !! ((turn room + 1 + k') `mod` length ps) = Some q ∧
            isOut q = true).
Proof.
  intros ps start. split.
  - intros fuel Hfuel. destruct (decide (ps = [])) as [Hnil|Hne].
    + left. unfold nextTurn. fold ps. rewrite Hnil.
      split; [done|]. split; [destruct fuel; [simpl in *; lia|done]|done].
    + right.
      destruct (nextTurn_loop_fuel ps (S (length ps)) (turn room) Hne)
        as (next & count & Hrun & Hcount & Hnext); [lia|].
      exists next, count, (set_turn room next).
      split_and!; [|done|done| |done|done|by repeat split].
      * eapply nextTurn_loop_more_fuel; [exact Hrun|lia].
      * unfold nextTurn. fold ps. by rewrite Hrun.
  - intros (p & Hp & Hout).
    apply list_elem_of_lookup in Hp as [j Hj].
    pose proof (lookup_lt_Some _ _ _ Hj) as Hjn.
    assert (start < length ps) as Hstart
      by (apply Nat.mod_upper_bound; lia).
    destruct (nextTurn_loop_spec ps (S (length ps)) start 0)
      as (k & Hk & Hrun & Hskip & Hstop); [done|lia|lia|].
    assert (k < length ps) as Hlt.
    { destruct (decide (k < length ps)) as [|Hge]; [done|].
      destruct (seat_reached ps start j Hstart Hjn) as (k0 & Hk0 & Hseat).
      destruct (Hskip k0) as (q & Hq & Hqout); [lia|].
      rewrite Hseat, Hj in Hq. congruence. }
    destruct Hstop as [(p' & Hp' & Hout')|Hn]; [|lia].
    assert ((start + k) `mod` length ps
            = (turn room + 1 + k) `mod` length ps) as Hseat
      by apply Nat.Div0.add_mod_idemp_l.
    exists k, p', (set_turn room ((turn room + 1 + k) `mod` length ps)).
    split_and!; [done| |done|done|by repeat split| |done|].
    + unfold nextTurn. fold ps start. by rewrite Hrun, Hseat.
    + cbn [set_turn players turn]. fold ps. by rewrite <- Hseat.
    + intros k' Hk'. destruct (Hskip k' Hk') as (q & Hq & Hqout).
      exists q. split; [|done].
      by rewrite <- (Nat.Div0.add_mod_idemp_l (turn room + 1) k').
Qed.

(** ** End of the game *)

(** C6, counterexample.  The only player left has the empty name, which
    [||] takes for a missing one: the loser reported is the placeholder,
    not the name. *)
Lemma checkGameOver_unnamed_loser :
  active room_unnamed = [mkPlayer "c2" "" [mkCard "♥" 9] false false] ∧
  loser (checkGameOver room_unnamed).1 = Some last_player ∧
  ¬ loser_is_remaining_player room_unnamed.
Proof.
  split_and!; [done|done|].
  intros [_ H]. specialize (H _ eq_refl). vm_compute in H. discriminate H.
Qed.

(** C6, amended.  [checkGameOver] returns true exactly when at most one
    player is not eliminated, and then sets [gameOver]; otherwise the room
    is as before.  With one player left the loser is that player's name
    when the name is not empty and the placeholder when it is; with
    nobody left the loser is the placeholder. *)
Theorem checkGameOver_spec (room : Room) :
  ((checkGameOver room).2 = true ↔ length (active room) ≤ 1) ∧
  ((checkGameOver room).2 = true → gameOver (checkGameOver room).1 = true) ∧
  ((checkGameOver room).2 = false → (checkGameOver room).1 = room) ∧
  (∀ p, active room = [p] → name p ≠ "" →
        loser (checkGameOver room).1 = Some (name p)) ∧
  (∀ p, active room = [p] → name p = "" →
        loser (checkGameOver room).1 = Some last_player) ∧
  (active room = [] → loser (checkGameOver room).1 = Some last_player).
Proof.
  unfold checkGameOver, active.
  destruct (filter _ (players room)) as [|p [|p' l]] eqn:Hact;
    case_bool_decide as Hlen; simpl in *; try lia.
  - split_and!; try done.
  - split_and!; try done.
    + intros q [= <-] Hname. unfold loser_name; simpl.
      by rewrite bool_decide_false.
    + intros q [= <-] Hname. unfold loser_name; simpl.
      by rewrite bool_decide_true.
  - split_and!; try done.
Qed.

(** ** Rejected commands *)

Lemma room_of_Some (st : Server) (clientId rid : string) (room : Room) :
  ws_roomId st !! clientId = Some rid → rooms st !! rid = Some room →
  room_of st clientId = Some (rid, room).
Proof. intros H1 H2. unfold room_of. rewrite H1. simpl. by rewrite H2. Qed.

(** A handler that leaves its room as it was leaves the server as it
    was. *)
Lemma in_room_unchanged (st : Server) (clientId rid : string) (room : Room)
    (h : Room → option (Room * list Out)) (sent : list Out) :
  ws_roomId st !! clientId = Some rid → rooms st !! rid = Some room →
  h room = Some (room, sent) →
  in_room st clientId h = Some (st, sent).
Proof.
  intros H1 H2 Hh. unfold in_room.
  rewrite (room_of_Some _ _ _ _ H1 H2), Hh. simpl.
  rewrite insert_id by done. by destruct st.
Qed.

Lemma same_card_true (card c : Card) : same_card card c = true ↔ c = card.
Proof.
  unfold same_card. rewrite andb_true_iff, !bool_decide_eq_true.
  destruct c, card; simpl. naive_solver.
Qed.

Lemma find_same_card_None (card : Card) (moves : list Card) :
  find (same_card card) moves = None ↔ card ∉ moves.
Proof.
  induction moves as [|c moves IH]; simpl.
  - rewrite elem_of_nil. tauto.
  - rewrite not_elem_of_cons. destruct (same_card card c) eqn:E.
    + apply same_card_true in E. naive_solver.
    + assert (c ≠ card) by (intros ?; apply same_card_true in H; congruence).
      naive_solver.
Qed.

(** C3, amended.  In a game in progress, a [play_card] or a [pass] of a
    connection that is not the current player's (or sent while the turn
    points at no player) is dropped: nothing is sent to anybody and the
    server state is as before. *)
Theorem not_your_turn_ignored (env : Env) (st : Server) (clientId rid : string)
    (room : Room) (card : Card) :
  ws_roomId st !! clientId = Some rid → rooms st !! rid = Some room →
  started room = true → gameOver room = false →
  currentPlayerId room ≠ Some clientId →
  on_message env st clientId (play_card card) = Some (st, []) ∧
  on_message env st clientId pass = Some (st, []).
Proof.
  intros Hws Hroom Hstarted Hover Hturn. unfold currentPlayerId in Hturn.
  split; simpl; (eapply in_room_unchanged; [done|done|]).
  - unfold play_card_room. rewrite Hstarted, Hover. simpl.
    destruct (players room !! turn room) as [player|]; [|done].
    rewrite bool_decide_true; [done|]. simpl in Hturn. congruence.
  - unfold pass_room. rewrite Hstarted, Hover. simpl.
    destruct (players room !! turn room) as [player|]; [|done].
    rewrite bool_decide_true; [done|]. simpl in Hturn. congruence.
Qed.

(** C5.  In a game in progress, a [play_card] of the current player with
    a card that is not among the legal moves of the player's hand is
    answered with the error of an invalid move, sent to that player only,
    and the server state, so the hand and the board, is as before. *)
Theorem illegal_move_rejected (env : Env) (st : Server) (clientId rid : string)
    (room : Room) (player : Player) (card : Card) :
  ws_roomId st !! clientId = Some rid → rooms st !! rid = Some room →
  started room = true → gameOver room = false →
  players room !! turn room = Some player → id player = clientId →
  card ∉ getValidMoves (hand player) (board room) →
  on_message env st clientId (play_card card)
  = Some (st, [(clientId, error err_invalid_move)]).
Proof.
  intros Hws Hroom Hstarted Hover Hplayer Hid Hcard. simpl.
  eapply in_room_unchanged; [done|done|].
  unfold play_card_room. rewrite Hstarted, Hover, Hplayer. simpl.
  rewrite bool_decide_false by (intros ?; congruence).
  apply find_same_card_None in Hcard. by rewrite Hcard.
Qed.

(** ** Dealing *)

Lemma dealCards_spec (deck : list Card) (n : nat) :
  0 < n →
  ∃ hands, dealCards deck n = Some hands ∧ length hands = n ∧
           ∀ i, i < n → hands !! i = Some (nth_hand deck n i).
Proof.
  intros Hn. unfold dealCards, nth_hand.
  induction deck as [|c deck IH] using rev_ind.
  - exists (replicate n []). simpl. split_and!; [done|by rewrite length_replicate|].
    intros i Hi. by rewrite lookup_replicate_2.
  - destruct IH as (hands & Hdeal & Hlen & Hhands).
    rewrite imap_app, foldl_app, Hdeal. simpl.
    rewrite Nat.add_0_r.
    assert (length deck `mod` n < n) as Hm by (apply Nat.mod_upper_bound; lia).
    rewrite (Hhands _ Hm). simpl.
    eexists. split_and!; [done|by rewrite length_insert|].
    intros i Hi. rewrite filter_app, fmap_app.
    destruct (decide (i = length deck `mod` n)) as [->|Hne].
    + rewrite list_lookup_insert_eq by lia.
      rewrite (filter_cons_True _ _ []) by done. done.
    + rewrite list_lookup_insert_ne by done.
      rewrite (filter_cons_False _ _ []) by (simpl; congruence).
      rewrite filter_nil, app_nil_r. by apply Hhands.
Qed.

(** What the deal of [start_game] and [restart] makes of a room with at
    least one player, whatever the room was before. *)
Lemma deal_spec (env : Env) (room : Room) :
  players room ≠ [] →
  ∃ room', deal env room = Some room' ∧
    deck room' = Some (createDeck (random env)) ∧
    board room' = initBoard ∧
    started room' = true ∧ gameOver room' = false ∧ loser room' = None ∧
    turn room' = firstPlayer (players room') ∧
    length (players room') = length (players room) ∧
    ∀ i p, players room !! i = Some p →
      players room' !! i
      = Some (mkPlayer (id p) (name p)
                (nth_hand (createDeck (random env)) (length (players room)) i)
                false false).
Proof.
  intros Hne.
  assert (0 < length (players room)) as Hn
    by (destruct (players room); simpl; [done|lia]).
  destruct (dealCards_spec (createDeck (random env)) _ Hn)
    as (hands & Hdeal & Hlen & Hhands).
  unfold deal. rewrite Hdeal. simpl. eexists. split; [done|]. simpl.
  split_and!; try done.
  - by rewrite length_imap.
  - intros i p Hp. rewrite list_lookup_imap, Hp. simpl.
    rewrite (Hhands i) by (by eapply lookup_lt_Some). done.
Qed.

(** ** Start and restart *)

Lemma in_room_Some (st : Server) (clientId rid : string) (room room' : Room)
    (h : Room → option (Room * list Out)) (sent : list Out) :
  ws_roomId st !! clientId = Some rid → rooms st !! rid = Some room →
  h room = Some (room', sent) →
  in_room st clientId h
  = Some (mkServer (<[rid := room']> (rooms st)) (ws_roomId st), sent).
Proof.
  intros H1 H2 Hh. unfold in_room.
  by rewrite (room_of_Some _ _ _ _ H1 H2), Hh.
Qed.

(** C2, amended.  [start_game] does not look at [started].  In a room
    that is already started it fails as in the lobby, for a sender who is
    not the host and for fewer than two players, each with its error sent
    to the sender and the state as before; from the host of a room with
    two players or more it is accepted and deals again: new shuffled deck,
    round-robin hands, flags cleared, empty board, and [game_started] and
    the new state sent to the room. *)
Theorem start_game_when_started (env : Env) (st : Server)
    (clientId rid : string) (room : Room) (host : Player) :
  ws_roomId st !! clientId = Some rid → rooms st !! rid = Some room →
  started room = true → players room !! 0 = Some host →
  (id host ≠ clientId →
   on_message env st clientId start_game
   = Some (st, [(clientId, error err_host_only)])) ∧
  (id host = clientId → length (players room) < 2 →
   on_message env st clientId start_game
   = Some (st, [(clientId, error err_two_players)])) ∧
  (id host = clientId → 2 ≤ length (players room) →
   ∃ room', dealt (createDeck (random env)) room room' ∧
     on_message env st clientId start_game
     = Some (mkServer (<[rid := room']> (rooms st)) (ws_roomId st),
             broadcast env room' game_started ++ sendGameState env room')).
Proof.
  intros Hws Hroom _ Hhost. cbn [on_message]. split_and!.
  - intros Hid. eapply in_room_unchanged; [done|done|].
    unfold start_game_room. rewrite Hhost. cbn [mbind option_bind].
    by rewrite bool_decide_true.
  - intros Hid Hlen. eapply in_room_unchanged; [done|done|].
    unfold start_game_room. rewrite Hhost. cbn [mbind option_bind].
    rewrite bool_decide_false by (intros ?; congruence).
    by rewrite bool_decide_true.
  - intros Hid Hlen.
    destruct (deal_spec env room) as (room' & Hdeal & Hdealt).
    { intros Hnil. by rewrite Hnil in Hhost. }
    exists room'. split; [exact Hdealt|].
    eapply in_room_Some; [done|done|].
    unfold start_game_room. rewrite Hhost. cbn [mbind option_bind].
    rewrite bool_decide_false by (intros ?; congruence).
    rewrite bool_decide_false by lia.
    by rewrite Hdeal.
Qed.

(** C10.  A [restart] sent by the player of seat 0 is accepted in every
    room, whether started or not and with any number of players from one
    on: the room gets a new shuffled deck dealt round-robin, every
    player's [isOut] and [passed] cleared, the empty board, [started]
    true, [gameOver] false and no loser, and [game_started] and the new
    state are sent to the room. *)
Theorem restart_deals (env : Env) (st : Server) (clientId rid : string)
    (room : Room) (host : Player) :
  ws_roomId st !! clientId = Some rid → rooms st !! rid = Some room →
  players room !! 0 = Some host → id host = clientId →
  ∃ room', dealt (createDeck (random env)) room room' ∧
    on_message env st clientId restart
    = Some (mkServer (<[rid := room']> (rooms st)) (ws_roomId st),
            broadcast env room' game_started ++ sendGameState env room').
Proof.
  intros Hws Hroom Hhost Hid.
  destruct (deal_spec env room) as (room' & Hdeal & Hdealt).
  { intros Hnil. by rewrite Hnil in Hhost. }
  exists room'. split; [exact Hdealt|]. cbn [on_message].
  eapply in_room_Some; [done|done|].
  unfold restart_room. rewrite Hhost. cbn [mbind option_bind].
  rewrite bool_decide_false by (intros ?; congruence).
  by rewrite Hdeal.
Qed.

(** ** Runs on the board *)




(** An accepted card only opens a suit or raises its run. *)
Lemma place_le (board : Board) (card : Card) :
  legal board card →
  ∃ board', place board card = Some board' ∧ board_le board board'.
Proof.
  unfold place. intros [[H7 Hnone]|[H7 (b & Hb & Hhigh & _)]].
  - rewrite bool_decide_true by done. eexists. split; [done|].
    intros s r Hr. destruct (decide (s = suit card)) as [->|Hne].
    + congruence.
    + exists r. rewrite lookup_insert_ne by done. split; [done|lia].
  - rewrite bool_decide_false by done. rewrite Hb. cbn [mbind option_bind].
    rewrite bool_decide_true by lia. eexists. split; [done|].
    intros s r Hr. destruct (decide (s = suit card)) as [->|Hne].
    + rewrite lookup_insert_eq. eexists. split; [done|].
      simpl. rewrite Hb in Hr. simplify_eq. lia.
    + exists r. rewrite lookup_insert_ne by done. split; [done|lia].
Qed.








Lemma room_of_inv (st : Server) (clientId rid : string) (room : Room) :
  room_of st clientId = Some (rid, room) → rooms st !! rid = Some room.
Proof.
  unfold room_of. destruct (ws_roomId st !! clientId) as [rid'|]; [|done].
  simpl. destruct (rooms st !! rid') as [room'|] eqn:E; [|done].
  simpl. by intros [= <- <-].
Qed.











(** ** Registry *)

(** C4, amended.  [create_room] always succeeds and stores a new lobby
    room, with the creator as its only player, under the generated
    identifier without looking whether the identifier is in use; the
    connection is pointed at it.  Rooms under any other identifier are as
    before, so all rooms are kept exactly when the identifier was free (or
    held a room equal to the new one). *)
Theorem create_room_stores (env : Env) (st : Server) (clientId name : string) :
  let st' := (create_room_handler env st clientId name).1 in
  on_message env st clientId (create_room name)
  = Some (create_room_handler env st clientId name) ∧
  rooms st' !! random_roomId env = Some (fresh_room clientId name) ∧
  ws_roomId st' !! clientId = Some (random_roomId env) ∧
  (∀ rid, rid ≠ random_roomId env → rooms st' !! rid = rooms st !! rid) ∧
  (create_room_keeps_rooms env st clientId name ↔
   rooms st !! random_roomId env = None ∨
   rooms st !! random_roomId env = Some (fresh_room clientId name)).
Proof.
  unfold create_room_keeps_rooms. cbn [create_room_handler fst rooms ws_roomId].
  fold (fresh_room clientId name).
  split_and!.
  - done.
  - apply lookup_insert_eq.
  - apply lookup_insert_eq.
  - intros rid Hne. by apply lookup_insert_ne.
  - split.
    + intros Hkeep. destruct (rooms st !! random_roomId env) as [room|] eqn:E;
        [right|by left].
      specialize (Hkeep _ _ E). rewrite lookup_insert_eq in Hkeep. congruence.
    + intros Hfree rid room Hroom.
      destruct (decide (rid = random_roomId env)) as [->|Hne].
      * rewrite lookup_insert_eq. destruct Hfree; congruence.
      * by rewrite lookup_insert_ne.
Qed.

(** ** Where the code departs from the specification *)

(** C2, counterexample.  The host sends [start_game] in the game in
    progress: no error is sent, the board is emptied and both players
    hold 16 new cards. *)
Lemma start_game_deals_again :
  started room_game = true ∧
  board room_game !! "♠" = Some (mkRun 7 8) ∧
  board <$> room_after (on_message env0 st_game "c1" start_game) "K7QX2M"
  = Some initBoard ∧
  (λ room, length ∘ hand <$> players room)
    <$> room_after (on_message env0 st_game "c1" start_game) "K7QX2M"
  = Some [16; 16] ∧
  ¬ rejected_with_error env0 st_game "c1" start_game.
Proof.
  split_and!; [done|done|by vm_compute|by vm_compute|].
  intros [text H]. vm_compute in H. discriminate H.
Qed.

(** C3, counterexample.  Ann sends [play_card] and [pass] while it is
    Bob's turn: both are dropped without any message to her. *)
Lemma not_your_turn_silent :
  started room_game = true ∧ gameOver room_game = false ∧
  currentPlayerId room_game = Some "c2" ∧
  on_message env0 st_game "c1" (play_card (mkCard "♠" 9)) = Some (st_game, []) ∧
  on_message env0 st_game "c1" pass = Some (st_game, []) ∧
  ¬ rejected_with_error env0 st_game "c1" (play_card (mkCard "♠" 9)) ∧
  ¬ rejected_with_error env0 st_game "c1" pass.
Proof.
  split_and!; try done; try (by vm_compute);
    intros [text H]; vm_compute in H; discriminate H.
Qed.

(** C4, counterexample.  A third connection creates a room while the
    generator returns the identifier of the game in progress: the game is
    replaced by the new lobby room. *)
Lemma create_room_replaces_live_room :
  rooms st_game !! "K7QX2M" = Some room_game ∧
  rooms (create_room_handler env0 st_game "c3" "Eve").1 !! "K7QX2M"
  = Some (fresh_room "c3" "Eve") ∧
  ¬ create_room_keeps_rooms env0 st_game "c3" "Eve".
Proof.
  split_and!; [done|done|].
  intros H. specialize (H "K7QX2M" room_game eq_refl).
  vm_compute in H. discriminate H.
Qed.


(** ** The theorems at work on the scenarios *)

(** Bob, whose turn it is, tries the 9 of hearts while hearts are not
    opened. *)
Lemma illegal_move_rejected_witness :
  (mkCard "♥" 9 ∉ getValidMoves (hand bob) (board room_game)) ∧
  on_message env0 st_game "c2" (play_card (mkCard "♥" 9))
  = Some (st_game, [("c2", error err_invalid_move)]).
Proof.
  assert (mkCard "♥" 9 ∉ getValidMoves (hand bob) (board room_game)) as Hcard.
  { vm_compute. apply not_elem_of_nil. }
  split; [exact Hcard|].
  apply (illegal_move_rejected env0 st_game "c2" "K7QX2M" room_game bob);
    [reflexivity|reflexivity|reflexivity|reflexivity|reflexivity|reflexivity|
     exact Hcard].
Defined.

Lemma not_your_turn_ignored_witness :
  on_message env0 st_game "c1" (play_card (mkCard "♠" 9)) = Some (st_game, []) ∧
  on_message env0 st_game "c1" pass = Some (st_game, []).
Proof.
  apply (not_your_turn_ignored env0 st_game "c1" "K7QX2M" room_game);
    [reflexivity|reflexivity|reflexivity|reflexivity|].
  vm_compute. discriminate.
Defined.

Lemma start_game_when_started_witness :
  ∃ room', dealt (createDeck (random env0)) room_game room' ∧
    on_message env0 st_game "c1" start_game
    = Some (mkServer (<["K7QX2M" := room']> (rooms st_game)) (ws_roomId st_game),
            broadcast env0 room' game_started ++ sendGameState env0 room').
Proof.
  destruct (start_game_when_started env0 st_game "c1" "K7QX2M" room_game ann)
    as (_ & _ & Hdeal); [reflexivity|reflexivity|reflexivity|reflexivity|].
  apply Hdeal; [reflexivity|]. cbn. lia.
Defined.

(** The creator restarts alone in the lobby. *)
Lemma restart_deals_witness :
  started (fresh_room "c1" "Ann") = false ∧
  length (players (fresh_room "c1" "Ann")) = 1 ∧
  ∃ room', dealt (createDeck (random env0)) (fresh_room "c1" "Ann") room' ∧
    on_message env0 st_lobby "c1" restart
    = Some (mkServer (<["K7QX2M" := room']> (rooms st_lobby)) (ws_roomId st_lobby),
            broadcast env0 room' game_started ++ sendGameState env0 room').
Proof.
  split; [reflexivity|]. split; [reflexivity|].
  apply (restart_deals env0 st_lobby "c1" "K7QX2M" (fresh_room "c1" "Ann")
           (new_player "c1" "Ann")); reflexivity.
Defined.


(** Seat 1 is out: from seat 0 the turn goes to seat 2. *)
Lemma nextTurn_skips_eliminated_witness :
  ∃ room', nextTurn room_three = Some room' ∧ turn room' = 2 ∧
           players room' = players room_three.
Proof.
  destruct (nextTurn_skips_eliminated room_three) as [_ Hskip].
  destruct Hskip as (k & p & room' & Hk & Hnext & _ & Hturn & Hsame & Hp &
                     Hout & Hskipped).
  { exists ann. split; [apply list_elem_of_here|reflexivity]. }
  exists room'. split; [exact Hnext|]. destruct Hsame as [Hps _].
  split; [|exact Hps]. rewrite Hps, Hturn in Hp.
  destruct k as [|[|[|k]]].
  - vm_compute in Hp. injection Hp as <-. discriminate Hout.
  - rewrite Hturn. reflexivity.
  - destruct (Hskipped 1) as (q & Hq & Hqout); [lia|].
    vm_compute in Hq. injection Hq as <-. discriminate Hqout.
  - cbn in Hk. lia.
Defined.

Lemma checkGameOver_spec_witness :
  loser (checkGameOver
           (mkRoom [ann; mkPlayer "c2" "Bob" [] false true] None initBoard
              true 0 false None)).1 = Some "Ann".
Proof.
  destruct (checkGameOver_spec
              (mkRoom [ann; mkPlayer "c2" "Bob" [] false true] None initBoard
                 true 0 false None)) as (_ & _ & _ & Hname & _).
  apply (Hname ann); [reflexivity|]. discriminate.
Defined.

Lemma create_room_stores_witness :
  rooms (create_room_handler env0 st_game "c3" "Eve").1 !! "ZZZZZZ" = None.
Proof.
  destruct (create_room_stores env0 st_game "c3" "Eve")
    as (_ & _ & _ & Hother & _).
  rewrite Hother; [reflexivity|discriminate].
Defined.

(** * Beyond the specification *)

(** ** More on dealing *)

Lemma concat_insert_snoc (hands : list (list Card)) (m : nat)
    (h : list Card) (c : Card) :
  hands !! m = Some h →
  concat (<[m := h ++ [c]]> hands) ≡ₚ concat hands ++ [c].
Proof.
  intros Hm.
  rewrite <- (take_drop_middle hands m h Hm) at 2.
  rewrite insert_take_drop by (by eapply lookup_lt_Some).
  rewrite !concat_app. simpl. rewrite <- !app_assoc.
  f_equiv. f_equiv. apply Permutation_app_comm.
Qed.

Lemma dealCards_perm (deck : list Card) (n : nat) (hands : list (list Card)) :
  dealCards deck n = Some hands → concat hands ≡ₚ deck.
Proof.
  unfold dealCards. revert hands.
  induction deck as [|c deck IH] using rev_ind; intros hands.
  - simpl. intros [= <-]. induction n; simpl; auto.
  - rewrite imap_app, foldl_app. simpl. rewrite Nat.add_0_r.
    destruct (foldl _ _ (imap pair deck)) as [hands0|]; [|done].
    simpl. destruct (hands0 !! _) as [h|] eqn:Hh; [|done].
    simpl. intros [= <-]. rewrite concat_insert_snoc by done.
    by rewrite (IH hands0).
Qed.

Lemma nth_hand_snoc (deck : list Card) (c : Card) (n i : nat) :
  nth_hand (deck ++ [c]) n i
  = nth_hand deck n i ++ (if decide (length deck `mod` n = i) then [c] else []).
Proof.
  unfold nth_hand. rewrite imap_app, filter_app, fmap_app. f_equal.
  simpl. rewrite Nat.add_0_r. case_decide.
  - by rewrite (filter_cons_True _ _ []).
  - by rewrite (filter_cons_False _ _ []).
Qed.

Lemma nth_hand_length (deck : list Card) (n i : nat) :
  i < n →
  length (nth_hand deck n i)
  = length deck `div` n + (if decide (i < length deck `mod` n) then 1 else 0).
Proof.
  intros Hi. induction deck as [|c deck IH] using rev_ind.
  - simpl. rewrite Nat.Div0.div_0_l, Nat.Div0.mod_0_l. by case_decide; [lia|].
  - rewrite nth_hand_snoc, !length_app, IH. simpl.
    pose proof (Nat.div_mod_eq (length deck) n) as Heq.
    pose proof (Nat.mod_upper_bound (length deck) n ltac:(lia)) as Hlt.
    set (q := length deck `div` n) in *. set (r := length deck `mod` n) in *.
    destruct (decide (S r = n)) as [Hwrap|Hnext].
    + assert ((length deck + 1) `div` n = S q) as ->
        by (symmetry; apply (Nat.div_unique _ _ _ 0); lia).
      assert ((length deck + 1) `mod` n = 0) as ->
        by (symmetry; apply (Nat.mod_unique _ _ (S q)); lia).
      repeat case_decide; simpl; lia.
    + assert ((length deck + 1) `div` n = q) as ->
        by (symmetry; apply (Nat.div_unique _ _ _ (S r)); lia).
      assert ((length deck + 1) `mod` n = S r) as ->
        by (symmetry; apply (Nat.mod_unique _ _ q); lia).
      repeat case_decide; simpl; lia.
Qed.

Lemma deal_step_None (n : nat) (l : list (nat * Card)) :
  foldl (deal_step n) None l = None.
Proof. induction l; simpl; auto. Qed.

Lemma deal_step_length (n : nat) (l : list (nat * Card))
    (acc : option (list (list Card))) (hands : list (list Card)) :
  foldl (deal_step n) acc l = Some hands →
  ∃ hands0, acc = Some hands0 ∧ length hands = length hands0.
Proof.
  revert acc. induction l as [|ic l IH]; intros acc; simpl.
  - intros ->. eauto.
  - intros Hfold. destruct (IH _ Hfold) as (hands1 & Hstep & Hlen).
    destruct acc as [hands0|]; [|done]. simpl in Hstep.
    destruct (hands0 !! _) as [h|]; [|done]. simpl in Hstep.
    simplify_eq. exists hands0. split; [done|].
    by rewrite Hlen, length_insert.
Qed.

Lemma dealCards_length (deck : list Card) (n : nat) (hands : list (list Card)) :
  dealCards deck n = Some hands → length hands = n.
Proof.
  unfold dealCards. intros Hdeal.
  destruct (deal_step_length _ _ _ _ Hdeal) as (hands0 & [= <-] & ->).
  apply length_replicate.
Qed.

(** X1.  Dealing to at least one player never fails: there is one hand
    per player, hand [i] is made of the cards of the deck at the indices
    [i], [i + n], [i + 2n], ... in this order, and the hands together are
    a rearrangement of the deck, no card lost and none added. *)
Theorem dealCards_round_robin (deck : list Card) (n : nat) :
  0 < n →
  ∃ hands, dealCards deck n = Some hands ∧ length hands = n ∧
    (∀ i, i < n → hands !! i = Some (nth_hand deck n i)) ∧
    concat hands ≡ₚ deck.
Proof.
  intros Hn. destruct (dealCards_spec deck n Hn) as (hands & Hdeal & Hlen & Hi).
  exists hands. split_and!; [done|done|done|by eapply dealCards_perm].
Qed.

(** X2.  The hands of a deal are as even as they can be: hand [i] has
    the quotient of the deck size by the number of players, and one card
    more when [i] is below the remainder.  So two hands differ by at most
    one card and an earlier seat never has fewer cards than a later one. *)
Theorem dealCards_sizes (deck : list Card) (n : nat) (hands : list (list Card))
    (i j : nat) (hi hj : list Card) :
  dealCards deck n = Some hands →
  hands !! i = Some hi → hands !! j = Some hj → i ≤ j →
  length hi
  = length deck `div` n + (if decide (i < length deck `mod` n) then 1 else 0) ∧
  length hj ≤ length hi ≤ length hj + 1.
Proof.
  intros Hdeal Hi Hj Hij.
  assert (0 < n) as Hn.
  { destruct n; [|lia]. unfold dealCards in Hdeal.
    destruct deck as [|c deck]; simpl in Hdeal.
    - by simplify_eq.
    - by rewrite deal_step_None in Hdeal. }
  destruct (dealCards_spec deck n Hn) as (hands' & Hdeal' & Hlen & Hnth).
  rewrite Hdeal in Hdeal'. simplify_eq.
  assert (i < length hands') as Hin by (by eapply lookup_lt_Some).
  assert (j < length hands') as Hjn by (by eapply lookup_lt_Some).
  rewrite (Hnth i Hin) in Hi. rewrite (Hnth j Hjn) in Hj. simplify_eq.
  rewrite !nth_hand_length by done.
  split; [done|]. repeat case_decide; lia.
Qed.

(** X3.  Without players, dealing throws as soon as there is a card to
    give (there is no hand to push it on); only the empty deck is dealt,
    to no hands. *)
Theorem dealCards_no_players (deck : list Card) :
  (deck = [] → dealCards deck 0 = Some []) ∧
  (deck ≠ [] → dealCards deck 0 = None).
Proof.
  split; [by intros ->|].
  destruct deck as [|c deck]; [done|]. intros _.
  unfold dealCards. simpl. apply deal_step_None.
Qed.

(** ** What every reachable room satisfies *)

Lemma fresh_room_inv (clientId name : string) :
  room_inv (fresh_room clientId name).
Proof.
  split; simpl; try done; try lia; try apply NoDup_nil_2;
    intros c; rewrite ?elem_of_nil; done.
Qed.

Lemma createDeck_length rnd : length (createDeck rnd) = 32.
Proof. unfold createDeck. by rewrite shuffle_loop_perm. Qed.

Lemma firstPlayer_lt (ps : list Player) : ps ≠ [] → firstPlayer ps < length ps.
Proof.
  intros Hne. unfold firstPlayer.
  destruct (list_find _ ps) as [[i p]|] eqn:E; simpl.
  - apply list_find_Some in E as (Hi & _). by eapply lookup_lt_Some.
  - destruct ps; simpl; [done|lia].
Qed.

(** The hands the players hold after a deal are the hands dealt. *)
Lemma deal_hands env (room room' : Room) :
  deal env room = Some room' →
  dealCards (createDeck (random env)) (length (players room))
  = Some (hand <$> players room') ∧
  length (players room') = length (players room) ∧
  (∀ p, p ∈ players room' → isOut p = false ∧ passed p = false) ∧
  board room' = initBoard ∧ started room' = true ∧ gameOver room' = false ∧
  turn room' = firstPlayer (players room').
Proof.
  unfold deal.
  destruct (dealCards _ _) as [hands|] eqn:Hdeal; [|done].
  cbn [mbind option_bind]. intros [= <-]. cbn.
  assert (length hands = length (players room)) as Hlen
    by (by eapply dealCards_length).
  split_and!; try done.
  - f_equal. apply list_eq. intros i.
    rewrite list_lookup_fmap, list_lookup_imap.
    destruct (players room !! i) as [p|] eqn:Hp; simpl.
    + destruct (lookup_lt_is_Some_2 hands i) as [h Hh].
      { rewrite Hlen. by eapply lookup_lt_Some. }
      by rewrite Hh.
    + apply lookup_ge_None. rewrite Hlen. by apply lookup_ge_None.
  - by rewrite length_imap.
  - intros p Hp. apply list_elem_of_lookup in Hp as [i Hp].
    rewrite list_lookup_imap in Hp.
    destruct (players room !! i); simplify_eq/=. done.
Qed.

Lemma deal_inv env (room room' : Room) :
  players room ≠ [] → length (players room) ≤ 4 →
  deal env room = Some room' → room_inv room'.
Proof.
  intros Hne Hle Hdeal.
  destruct (deal_hands _ _ _ Hdeal)
    as (Hhands & Hlen & Hflags & Hboard & Hstarted & Hover & Hturn).
  assert (0 < length (players room)) as Hn
    by (destruct (players room); simpl; [done|lia]).
  assert (all_hands room' ≡ₚ build_deck) as Hperm.
  { unfold all_hands. rewrite (dealCards_perm _ _ _ Hhands).
    apply shuffle_loop_perm. }
  assert (players room' ≠ []) as Hne'
    by (intros Hnil; rewrite Hnil in Hlen; simpl in Hlen; lia).
  split.
  - done.
  - lia.
  - rewrite Hperm. apply build_deck_NoDup.
  - intros c. rewrite Hperm. apply build_deck_elem.
  - intros s r. by rewrite Hboard.
  - intros c r _. by rewrite Hboard.
  - congruence.
  - intros _ _. rewrite Hturn. by apply firstPlayer_lt.
  - intros _ p Hp. destruct (Hflags p Hp) as [Hout _]. rewrite Hout.
    split; [done|]. intros Hnil. exfalso.
    apply list_elem_of_lookup in Hp as [i Hp].
    assert ((hand <$> players room') !! i = Some (hand p)) as Hh
      by (by rewrite list_lookup_fmap, Hp).
    destruct (dealCards_spec (createDeck (random env)) _ Hn)
      as (hands & Hdeal' & _ & Hnth).
    rewrite Hhands in Hdeal'. simplify_eq.
    assert (i < length (players room)) as Hi
      by (rewrite <- Hlen; by eapply lookup_lt_Some).
    rewrite (Hnth i Hi) in Hh. injection Hh as Hh.
    rewrite <- Hh in Hnil. apply (f_equal length) in Hnil as Hz.
    rewrite nth_hand_length, createDeck_length in Hz by done. simpl in Hz.
    assert (1 ≤ 32 `div` length (players room)); [|lia].
    apply Nat.div_le_lower_bound; lia.
  - congruence.
Qed.

Lemma place_legal (board : Board) (card : Card) :
  legal board card →
  ∃ lo, place board card
        = Some (<[suit card := mkRun lo (value card)]> board) ∧
    ((board !! suit card = None ∧ value card = 7%Z ∧ lo = 7%Z) ∨
     (∃ b, board !! suit card = Some b ∧ lo = low b ∧
           (high b = value card - 1)%Z ∧ value card ≠ 7%Z)).
Proof.
  unfold place. intros [[H7 Hnone]|[H7 (b & Hb & Hhigh & _)]].
  - rewrite bool_decide_true by done. exists 7%Z. split; [by rewrite H7|].
    by left.
  - rewrite bool_decide_false by done. rewrite Hb. cbn [mbind option_bind].
    rewrite bool_decide_true by lia. exists (low b). split; [done|].
    right. eauto.
Qed.

Lemma nextTurn_inv (room room' : Room) :
  nextTurn room = Some room' →
  ∃ next, room' = set_turn room next ∧ next < length (players room).
Proof.
  unfold nextTurn. intros Hnext.
  destruct (decide (players room = [])) as [Hnil|Hne].
  - rewrite Hnil in Hnext. cbn [nextTurn_loop length] in Hnext.
    by rewrite lookup_nil in Hnext.
  - destruct (nextTurn_loop_fuel (players room) (S (length (players room)))
                (turn room) Hne) as (next & count & Hrun & _ & Hlt); [lia|].
    rewrite Hrun in Hnext. simplify_eq. eauto.
Qed.

Lemma getValidMoves_elem (hand : list Card) (board : Board) (c : Card) :
  c ∈ getValidMoves hand board ↔ c ∈ hand ∧ legal board c.
Proof.
  unfold getValidMoves. rewrite foldl_valid_step_elem, elem_of_nil. tauto.
Qed.

(** What [play_card] does to a room: nothing, or the card of the current
    player is placed, and then either the game ends there or the turn
    moves. *)
Lemma play_card_room_result env clientId card (room room' : Room) sent :
  play_card_room env clientId card room = Some (room', sent) →
  room' = room ∨
  ∃ player board',
    started room = true ∧ gameOver room = false ∧
    players room !! turn room = Some player ∧ id player = clientId ∧
    card ∈ hand player ∧ legal (board room) card ∧
    place (board room) card = Some board' ∧
    ((hand (played player card) = [] ∧
      length (active (after_card room player card board')) ≤ 1 ∧
      room' = (checkGameOver (after_card room player card board')).1 ∧
      gameOver room' = true) ∨
     ((hand (played player card) ≠ [] ∨
       1 < length (active (after_card room player card board'))) ∧
      nextTurn (after_card room player card board') = Some room')).
Proof.
  unfold play_card_room.
  destruct (started room) eqn:Hstarted; [|intros [= <- _]; by left].
  destruct (gameOver room) eqn:Hover; [intros [= <- _]; by left|].
  cbn [negb orb].
  destruct (players room !! turn room) as [player|] eqn:Hplayer;
    [|intros [= <- _]; by left].
  case_bool_decide as Hid; [intros [= <- _]; by left|].
  destruct (find _ _) as [c|] eqn:Hfind; [|intros [= <- _]; by left].
  apply find_some in Hfind as [Hin Hsame].
  apply same_card_true in Hsame as ->.
  apply list_elem_of_In, getValidMoves_elem in Hin as [Hin Hlegal].
  destruct (place_legal _ _ Hlegal) as (lo & Hplace & _).
  rewrite Hplace. cbn [mbind option_bind].
  set (board' := <[suit card := _]> (board room)).
  intros Hres. right. exists player, board'.
  assert (id player = clientId) as Hid'
    by (destruct (decide (id player = clientId)); [done|by destruct Hid]).
  split_and!; try done.
  unfold after_card, played. rewrite Hstarted, Hover.
  case_bool_decide as Hlen.
  - apply length_zero_iff_nil in Hlen as Hnil.
    rewrite bool_decide_true by done. cbn [orb]. rewrite Hnil in Hres |- *.
    destruct (checkGameOver _) as [room2 over] eqn:Hcheck.
    unfold checkGameOver in Hcheck. fold (active
      (mkRoom (<[turn room := mkPlayer (id player) (name player) [] false true]>
                 (players room)) (deck room) board' true (turn room) false
         (loser room))) in Hcheck.
    case_bool_decide as Hact; simplify_eq/=.
    + left. done.
    + right. split; [right; lia|]. unfold advance in Hres.
      destruct (nextTurn _) as [r|]; simplify_eq/=. done.
  - assert (filter (λ c, same_card card c = false) (hand player) ≠ [])
      as Hne by (intros Hnil; by rewrite Hnil in Hlen).
    rewrite bool_decide_false by done. cbn [orb].
    right. split; [by left|]. unfold advance in Hres.
    destruct (nextTurn _) as [r|]; simplify_eq/=. done.
Qed.

Lemma pass_room_result env clientId (room room' : Room) sent :
  pass_room env clientId room = Some (room', sent) →
  room' = room ∨
  ∃ player,
    started room = true ∧ gameOver room = false ∧
    players room !! turn room = Some player ∧ id player = clientId ∧
    getValidMoves (hand player) (board room) = [] ∧
    nextTurn (after_pass room player) = Some room'.
Proof.
  unfold pass_room.
  destruct (started room) eqn:Hstarted; [|intros [= <- _]; by left].
  destruct (gameOver room) eqn:Hover; [intros [= <- _]; by left|].
  cbn [negb orb].
  destruct (players room !! turn room) as [player|] eqn:Hplayer;
    [|intros [= <- _]; by left].
  case_bool_decide as Hid; [intros [= <- _]; by left|].
  case_bool_decide as Hmoves; [intros [= <- _]; by left|].
  intros Hres. right. exists player.
  assert (id player = clientId) as Hid'
    by (destruct (decide (id player = clientId)); [done|by destruct Hid]).
  assert (getValidMoves (hand player) (board room) = []) as Hnil
    by (destruct (getValidMoves _ _); simpl in *; [done|lia]).
  split_and!; try done.
  unfold advance in Hres. unfold after_pass. rewrite Hstarted, Hover.
  destruct (nextTurn _) as [r|]; simplify_eq/=. done.
Qed.

Lemma elem_of_insert_inv {A} (l : list A) (i : nat) (x y : A) :
  y ∈ <[i := x]> l → y = x ∨ y ∈ l.
Proof.
  intros Hy. apply list_elem_of_lookup in Hy as [j Hj].
  apply list_lookup_insert_Some in Hj as [(_ & -> & _)|(_ & Hj)]; [by left|].
  right. by eapply list_elem_of_lookup_2.
Qed.

(** The cards held in a room, split around the seat [t]. *)
Lemma all_hands_split (ps : list Player) (t : nat) (p : Player) :
  ps !! t = Some p →
  concat (hand <$> ps)
  = concat (hand <$> take t ps) ++ hand p ++ concat (hand <$> drop (S t) ps).
Proof.
  intros Hp. rewrite <- (take_drop_middle ps t p Hp) at 1.
  by rewrite fmap_app, fmap_cons, concat_app.
Qed.

Lemma all_hands_insert (ps : list Player) (t : nat) (p p' : Player) :
  ps !! t = Some p →
  concat (hand <$> <[t := p']> ps)
  = concat (hand <$> take t ps) ++ hand p' ++ concat (hand <$> drop (S t) ps).
Proof.
  intros Hp. rewrite insert_take_drop by (by eapply lookup_lt_Some).
  by rewrite fmap_app, fmap_cons, concat_app.
Qed.

Lemma filter_other_cards (card : Card) (l : list Card) :
  card ∉ l → filter (λ c, same_card card c = false) l = l.
Proof.
  induction l as [|c l IH]; [done|]. rewrite not_elem_of_cons. intros [Hne Hl].
  rewrite filter_cons_True.
  - by rewrite IH.
  - destruct (same_card card c) eqn:E; [|done].
    apply same_card_true in E. congruence.
Qed.

(** With no card held twice, placing a card takes exactly that card out
    of the cards held in the room. *)
Lemma all_hands_played (room : Room) (player : Player) (card : Card)
    (board' : Board) :
  NoDup (all_hands room) → players room !! turn room = Some player →
  card ∈ hand player →
  all_hands (after_card room player card board')
  = filter (λ c, same_card card c = false) (all_hands room).
Proof.
  intros Hnodup Hplayer Hcard. unfold all_hands, after_card. cbn [players].
  rewrite (all_hands_insert _ _ _ _ Hplayer).
  unfold all_hands in Hnodup. rewrite (all_hands_split _ _ _ Hplayer) in Hnodup |- *.
  apply NoDup_app in Hnodup as (_ & Hleft & Hrest).
  apply NoDup_app in Hrest as (_ & Hright & _).
  rewrite !filter_app. f_equal; [|f_equal].
  - symmetry. apply filter_other_cards. intros Hin.
    apply (Hleft _ Hin). apply elem_of_app. by left.
  - symmetry. apply filter_other_cards. by apply Hright.
Qed.

Lemma elem_of_all_hands (room : Room) (c : Card) :
  c ∈ all_hands room ↔ ∃ p, p ∈ players room ∧ c ∈ hand p.
Proof.
  unfold all_hands. rewrite list_elem_of_In, in_concat. split.
  - intros (h & Hh & Hc). apply list_elem_of_In, list_elem_of_fmap in Hh
      as (p & -> & Hp). exists p. split; [done|by apply list_elem_of_In].
  - intros (p & Hp & Hc). exists (hand p). rewrite <- !list_elem_of_In.
    split; [|done]. apply list_elem_of_fmap. eauto.
Qed.

Lemma after_card_inv (room : Room) (player : Player) (card : Card)
    (board' : Board) :
  room_inv room → started room = true → gameOver room = false →
  players room !! turn room = Some player → card ∈ hand player →
  legal (board room) card → place (board room) card = Some board' →
  room_inv (after_card room player card board').
Proof.
  intros Hinv Hstarted Hover Hplayer Hcard Hlegal Hplace.
  pose proof (list_elem_of_lookup_2 _ _ _ Hplayer) as Hseat.
  assert (card ∈ all_hands room) as Hheld
    by (apply elem_of_all_hands; eauto).
  pose proof (inv_cards _ Hinv _ Hheld) as [Hsuit Hrank].
  pose proof (all_hands_played room player card board' (inv_nodup _ Hinv)
                Hplayer Hcard) as Hhands.
  destruct (place_legal _ _ Hlegal) as (lo & Hplace' & Hlo).
  rewrite Hplace in Hplace'. injection Hplace' as ->.
  split.
  - cbn. intros Hnil. apply (f_equal length) in Hnil.
    rewrite length_insert in Hnil. by destruct (players room).
  - cbn. rewrite length_insert. apply Hinv.
  - rewrite Hhands. apply NoDup_filter, Hinv.
  - intros c. rewrite Hhands, list_elem_of_filter. intros [_ Hc].
    by apply Hinv.
  - cbn. intros s r. destruct (decide (s = suit card)) as [->|Hne].
    + rewrite lookup_insert_eq. intros [= <-]. simpl.
      split; [done|]. split; [|lia].
      destruct Hlo as [(_ & _ & ->)|(b & Hb & -> & _)]; [done|].
      by apply (inv_board _ Hinv _ _ Hb).
    + rewrite lookup_insert_ne by done. apply Hinv.
  - intros c r. rewrite Hhands, list_elem_of_filter. intros [Hne Hc]. cbn.
    assert (c ≠ card) as Hdiff.
    { intros ->. assert (same_card card card = true) as E
        by (by apply same_card_true). congruence. }
    pose proof (inv_cards _ Hinv _ Hc) as [_ Hcrank].
    destruct (decide (suit c = suit card)) as [Heq|Hsne].
    + rewrite Heq, lookup_insert_eq. intros [= <-]. simpl.
      assert (value c ≠ value card) as Hvne.
      { intros Hv. apply Hdiff. destruct c, card; simpl in *. congruence. }
      destruct Hlo as [(_ & H7 & _)|(b & Hb & _ & Hhigh & _)]; [lia|].
      rewrite <- Heq in Hb. pose proof (inv_above _ Hinv _ _ Hc Hb). lia.
    + rewrite lookup_insert_ne by done. by apply Hinv.
  - cbn. congruence.
  - cbn. rewrite length_insert. intros _ _. by apply Hinv.
  - cbn. intros _ p Hp. apply elem_of_insert_inv in Hp as [->|Hp].
    + unfold played. cbn. case_bool_decide as Hnil; cbn; [done|].
      split; [|done]. intros Hout.
      apply (inv_out _ Hinv Hstarted _ Hseat) in Hout.
      rewrite Hout in Hcard. by apply elem_of_nil in Hcard.
    + by apply Hinv.
  - cbn. congruence.
Qed.

Lemma checkGameOver_inv (room : Room) :
  room_inv room → started room = true → room_inv (checkGameOver room).1.
Proof.
  intros Hinv Hstarted. unfold checkGameOver.
  case_bool_decide as Hfew; [|done].
  destruct Hinv. split; cbn; try done. congruence.
Qed.

Lemma set_turn_inv (room : Room) (next : nat) :
  room_inv room → started room = true → next < length (players room) →
  room_inv (set_turn room next).
Proof.
  intros Hinv Hstarted Hnext. destruct Hinv.
  split; cbn; try done. congruence.
Qed.

Lemma after_pass_inv (room : Room) (player : Player) :
  room_inv room → started room = true → gameOver room = false →
  players room !! turn room = Some player →
  room_inv (after_pass room player).
Proof.
  intros Hinv Hstarted Hover Hplayer.
  pose proof (list_elem_of_lookup_2 _ _ _ Hplayer) as Hseat.
  assert (all_hands (after_pass room player) = all_hands room) as Hhands.
  { unfold all_hands, after_pass. cbn [players].
    by rewrite (all_hands_insert _ _ _ _ Hplayer),
      (all_hands_split _ _ _ Hplayer). }
  destruct Hinv. split; rewrite ?Hhands; cbn; try done.
  - intros Hnil. apply (f_equal length) in Hnil.
    rewrite length_insert in Hnil. by destruct (players room).
  - by rewrite length_insert.
  - by rewrite length_insert.
  - intros _ p Hp. apply elem_of_insert_inv in Hp as [->|Hp]; cbn.
    + by apply inv_out0.
    + by apply inv_out0.
  - congruence.
Qed.

Lemma play_card_room_inv env clientId card (room room' : Room) sent :
  room_inv room →
  play_card_room env clientId card room = Some (room', sent) →
  room_inv room'.
Proof.
  intros Hinv Hplay.
  apply play_card_room_result in Hplay
    as [->|(player & board' & Hstarted & Hover & Hplayer & _ & Hcard &
            Hlegal & Hplace & Hres)]; [done|].
  pose proof (after_card_inv _ _ _ _ Hinv Hstarted Hover Hplayer Hcard
                Hlegal Hplace) as Hinv1.
  destruct Hres as [(_ & _ & -> & _)|(_ & Hnext)].
  - by apply checkGameOver_inv.
  - apply nextTurn_inv in Hnext as (next & -> & Hlt).
    by apply set_turn_inv.
Qed.

Lemma pass_room_inv env clientId (room room' : Room) sent :
  room_inv room →
  pass_room env clientId room = Some (room', sent) →
  room_inv room'.
Proof.
  intros Hinv Hpass.
  apply pass_room_result in Hpass
    as [->|(player & Hstarted & Hover & Hplayer & _ & _ & Hnext)]; [done|].
  apply nextTurn_inv in Hnext as (next & -> & Hlt).
  apply set_turn_inv; [by apply after_pass_inv|done|done].
Qed.

Lemma start_game_room_inv env clientId (room room' : Room) sent :
  room_inv room →
  start_game_room env clientId room = Some (room', sent) →
  room_inv room'.
Proof.
  intros Hinv. unfold start_game_room.
  destruct (players room !! 0) as [host|]; [|done]. cbn [mbind option_bind].
  case_bool_decide; [by intros [= <- _]|].
  case_bool_decide; [by intros [= <- _]|].
  destruct (deal env room) as [r|] eqn:Hdeal; [|done].
  cbn [mbind option_bind]. intros [= <- _].
  eapply deal_inv; [apply Hinv|apply Hinv|done].
Qed.

Lemma restart_room_inv env clientId (room room' : Room) sent :
  room_inv room →
  restart_room env clientId room = Some (room', sent) →
  room_inv room'.
Proof.
  intros Hinv. unfold restart_room.
  destruct (players room !! 0) as [host|]; [|done]. cbn [mbind option_bind].
  case_bool_decide; [by intros [= <- _]|].
  destruct (deal env room) as [r|] eqn:Hdeal; [|done].
  cbn [mbind option_bind]. intros [= <- _].
  eapply deal_inv; [apply Hinv|apply Hinv|done].
Qed.

Lemma server_inv_insert (st : Server) (rid : string) (room : Room) ws :
  server_inv st → room_inv room →
  server_inv (mkServer (<[rid := room]> (rooms st)) ws).
Proof.
  intros Hst Hroom rid' room'. cbn.
  destruct (decide (rid' = rid)) as [->|Hne].
  - rewrite lookup_insert_eq. by intros [= <-].
  - rewrite lookup_insert_ne by done. apply Hst.
Qed.

Lemma in_room_inv (st st' : Server) (clientId : string)
    (h : Room → option (Room * list Out)) (sent : list Out) :
  (∀ room room' s, room_inv room → h room = Some (room', s) → room_inv room') →
  server_inv st → in_room st clientId h = Some (st', sent) → server_inv st'.
Proof.
  intros Hh Hst. unfold in_room.
  destruct (room_of st clientId) as [[rid room]|] eqn:Hroom.
  - apply room_of_inv in Hroom.
    destruct (h room) as [[room' s]|] eqn:E; [|done].
    cbn [mbind option_bind]. intros [= <- _].
    apply server_inv_insert; [done|]. eapply Hh; [|done]. by eapply Hst.
  - by intros [= <- _].
Qed.

Lemma join_room_inv env (st : Server) (clientId roomId name : string) :
  server_inv st → server_inv (join_room_handler env st clientId roomId name).1.
Proof.
  intros Hst. unfold join_room_handler.
  destruct (rooms st !! roomId) as [room|] eqn:Hroom; [|done].
  destruct (started room) eqn:Hstarted; [done|].
  case_bool_decide as Hfull; [done|].
  apply server_inv_insert; [done|].
  pose proof (Hst _ _ Hroom) as Hinv.
  assert (all_hands (mkRoom (players room ++ [new_player clientId name])
                       (deck room) (board room) false (turn room)
                       (gameOver room) (loser room)) = all_hands room) as Hhands.
  { unfold all_hands. cbn. rewrite fmap_app, concat_app. cbn.
    by rewrite app_nil_r. }
  destruct Hinv. split; rewrite ?Hhands; cbn; try done.
  - by destruct (players room).
  - rewrite length_app. simpl. lia.
  - intros _. by apply inv_lobby0.
  - intros Ho. destruct (inv_lobby0 Hstarted) as (_ & _ & _ & ?). congruence.
Qed.

Lemma sublist_concat_filter (ps : list Player) (P : Player → Prop)
    `{∀ p, Decision (P p)} :
  concat (hand <$> filter P ps) `sublist_of` concat (hand <$> ps).
Proof.
  induction ps as [|p ps IH]; [done|].
  destruct (decide (P p)).
  - rewrite filter_cons_True by done. cbn. by apply sublist_app.
  - rewrite filter_cons_False by done. cbn. by apply sublist_inserts_l.
Qed.

Lemma active_filter_length (ps : list Player) (P : Player → Prop)
    `{∀ p, Decision (P p)} :
  length (filter (λ p, isOut p = false) (filter P ps))
  ≤ length (filter (λ p, isOut p = false) ps).
Proof.
  induction ps as [|p ps IH]; [done|].
  destruct (decide (P p)).
  - rewrite (filter_cons_True P) by done.
    destruct (decide (isOut p = false)).
    + rewrite !(filter_cons_True (λ p, isOut p = false)) by done. simpl. lia.
    + by rewrite !(filter_cons_False (λ p, isOut p = false)) by done.
  - rewrite (filter_cons_False P) by done.
    destruct (decide (isOut p = false)).
    + rewrite (filter_cons_True (λ p, isOut p = false)) by done. simpl. lia.
    + by rewrite (filter_cons_False (λ p, isOut p = false)) by done.
Qed.

Lemma on_close_inv env (st : Server) (clientId : string) :
  server_inv st → server_inv (on_close env st clientId).1.
Proof.
  intros Hst. unfold on_close.
  destruct (room_of st clientId) as [[rid room]|] eqn:Hroom; [|done].
  apply room_of_inv in Hroom. pose proof (Hst _ _ Hroom) as Hinv.
  set (ps := filter (λ p, id p ≠ clientId) (players room)).
  case_bool_decide as Hempty.
  { intros rid' room'. cbn. destruct (decide (rid' = rid)) as [->|Hne].
    - by rewrite lookup_delete_eq.
    - rewrite lookup_delete_ne by done. apply Hst. }
  assert (ps ≠ []) as Hne by (intros Hnil; by rewrite Hnil in Hempty).
  assert (∀ t over, all_hands (mkRoom ps (deck room) (board room)
            (started room) t over (loser room)) `sublist_of` all_hands room)
    as Hsub by (intros; apply sublist_concat_filter).
  assert (∀ t, (started room = false → t = 0) →
               (started room = true → gameOver room = false → t < length ps) →
               room_inv (mkRoom ps (deck room) (board room) (started room) t
                           (gameOver room) (loser room))) as Hroom'.
  { intros t Hlobby Hturn. split; cbn; try done.
    - etrans; [apply length_filter|apply Hinv].
    - eapply sublist_NoDup; [apply Hinv|apply (Hsub t (gameOver room))].
    - intros c Hc. apply Hinv.
      by eapply elem_of_sublist; [|apply (Hsub t (gameOver room))].
    - apply Hinv.
    - intros c r Hc. apply Hinv.
      by eapply elem_of_sublist; [|apply (Hsub t (gameOver room))].
    - intros Hstarted. destruct (inv_lobby _ Hinv Hstarted) as (_ & ? & Hnil & ?).
      split_and!; [by apply Hlobby|done| |done].
      pose proof (Hsub t (gameOver room)) as Hs. rewrite Hnil in Hs.
      by apply sublist_nil_r in Hs.
    - intros Hstarted p Hp. apply (inv_out _ Hinv Hstarted).
      by apply list_elem_of_filter in Hp as [_ Hp].
    - intros Ho. unfold active. cbn [players].
      etrans; [apply active_filter_length|by apply (inv_over _ Hinv)]. }
  cbn [started gameOver turn players].
  destruct (started room && negb (gameOver room)) eqn:Hplaying.
  - apply andb_true_iff in Hplaying as [Hs Ho]. apply negb_true_iff in Ho.
    case_bool_decide as Hclamp; (apply server_inv_insert; [done|]).
    + unfold set_turn; cbn. apply Hroom'; [congruence|].
      intros _ _. destruct ps; simpl; [done|lia].
    + apply Hroom'; [congruence|]. intros _ _. fold ps in Hclamp. lia.
  - apply server_inv_insert; [done|]. apply Hroom'.
    + intros Hs. by apply (inv_lobby _ Hinv).
    + intros Hs Ho. by rewrite Hs, Ho in Hplaying.
Qed.

(** ** No handler throws *)

Lemma nextTurn_total (room : Room) :
  players room ≠ [] → is_Some (nextTurn room).
Proof.
  intros Hne. unfold nextTurn.
  destruct (nextTurn_loop_fuel (players room) (S (length (players room)))
              (turn room) Hne) as (next & count & Hrun & _); [lia|].
  by rewrite Hrun.
Qed.

Lemma advance_total env (room : Room) (sent : list Out) :
  players room ≠ [] → is_Some (advance env room sent).
Proof.
  intros Hne. unfold advance.
  destruct (nextTurn_total room Hne) as [r ->]. done.
Qed.

Lemma insert_not_nil {A} (l : list A) (i : nat) (x : A) :
  l ≠ [] → <[i := x]> l ≠ [].
Proof.
  intros Hne Hnil. apply (f_equal length) in Hnil.
  rewrite length_insert in Hnil. by destruct l.
Qed.

Lemma deal_total env (room : Room) :
  players room ≠ [] → is_Some (deal env room).
Proof.
  intros Hne. destruct (deal_spec env room Hne) as (room' & -> & _). done.
Qed.

Lemma play_card_room_total env clientId card (room : Room) :
  players room ≠ [] → is_Some (play_card_room env clientId card room).
Proof.
  intros Hne. unfold play_card_room.
  destruct (negb (started room) || gameOver room); [done|].
  destruct (players room !! turn room) as [player|]; [|done].
  case_bool_decide; [done|].
  destruct (find _ _) as [c|] eqn:Hfind; [|done].
  apply find_some in Hfind as [Hin Hsame].
  apply same_card_true in Hsame as ->.
  apply list_elem_of_In, getValidMoves_elem in Hin as [_ Hlegal].
  destruct (place_legal _ _ Hlegal) as (lo & -> & _).
  cbn [mbind option_bind]. case_bool_decide.
  - destruct (checkGameOver _) as [room2 over] eqn:Hcheck.
    destruct over; [done|]. apply advance_total.
    unfold checkGameOver in Hcheck. case_bool_decide; simplify_eq/=.
    by apply insert_not_nil.
  - apply advance_total. cbn. by apply insert_not_nil.
Qed.

Lemma pass_room_total env clientId (room : Room) :
  players room ≠ [] → is_Some (pass_room env clientId room).
Proof.
  intros Hne. unfold pass_room.
  destruct (negb (started room) || gameOver room); [done|].
  destruct (players room !! turn room) as [player|]; [|done].
  case_bool_decide; [done|]. case_bool_decide; [done|].
  apply advance_total. cbn. by apply insert_not_nil.
Qed.

Lemma start_game_room_total env clientId (room : Room) :
  players room ≠ [] → is_Some (start_game_room env clientId room).
Proof.
  intros Hne. unfold start_game_room.
  destruct (players room) as [|host ps] eqn:Hps; [done|].
  cbn [lookup list_lookup mbind option_bind].
  case_bool_decide; [done|]. case_bool_decide; [done|].
  destruct (deal_total env room) as [r Hr]; [by rewrite Hps|].
  by rewrite Hr.
Qed.

Lemma restart_room_total env clientId (room : Room) :
  players room ≠ [] → is_Some (restart_room env clientId room).
Proof.
  intros Hne. unfold restart_room.
  destruct (players room) as [|host ps] eqn:Hps; [done|].
  cbn [lookup list_lookup mbind option_bind].
  case_bool_decide; [done|].
  destruct (deal_total env room) as [r Hr]; [by rewrite Hps|].
  by rewrite Hr.
Qed.

Lemma in_room_total (st : Server) (clientId : string)
    (h : Room → option (Room * list Out)) :
  (∀ room, players room ≠ [] → is_Some (h room)) →
  server_inv st → is_Some (in_room st clientId h).
Proof.
  intros Hh Hst. unfold in_room.
  destruct (room_of st clientId) as [[rid room]|] eqn:Hroom; [|done].
  apply room_of_inv in Hroom.
  destruct (Hh room) as [[room' sent] ->]; [by apply (Hst _ _ Hroom)|]. done.
Qed.

Lemma step_inv (st : Server) (e : Event) :
  server_inv st →
  ∃ st' sent, step st e = Some (st', sent) ∧ server_inv st'.
Proof.
  intros Hst.
  assert (∀ h clientId,
    (∀ room, players room ≠ [] → is_Some (h room)) →
    (∀ room room' s, room_inv room → h room = Some (room', s) → room_inv room') →
    ∃ st' sent, in_room st clientId h = Some (st', sent) ∧ server_inv st')
    as Hin.
  { intros h clientId Htotal Hkeep.
    destruct (in_room_total st clientId h Htotal Hst) as [[st' sent] Hrun].
    exists st', sent. split; [done|]. by eapply in_room_inv. }
  destruct e as [env clientId msg|env clientId]; cbn [step].
  - destruct msg; cbn [on_message].
    + eexists _, _. split; [by rewrite <- surjective_pairing|].
      unfold create_room_handler. cbn.
      apply server_inv_insert; [done|apply fresh_room_inv].
    + eexists _, _. split; [by rewrite <- surjective_pairing|].
      by apply join_room_inv.
    + apply Hin; [apply start_game_room_total|].
      intros ???. apply start_game_room_inv.
    + apply Hin; [apply play_card_room_total|].
      intros ???. apply play_card_room_inv.
    + apply Hin; [apply pass_room_total|]. intros ???. apply pass_room_inv.
    + apply Hin; [apply restart_room_total|].
      intros ???. apply restart_room_inv.
    + by eexists _, _.
  - eexists _, _. split; [by rewrite <- surjective_pairing|].
    by apply on_close_inv.
Qed.

Lemma run_inv (es : list Event) (st : Server) :
  server_inv st →
  ∃ st' sent, run st es = Some (st', sent) ∧ server_inv st'.
Proof.
  revert st. induction es as [|e es IH]; intros st Hst; cbn [run].
  - by eexists _, _.
  - destruct (step_inv st e Hst) as (st1 & sent1 & -> & Hst1).
    cbn [mbind option_bind].
    destruct (IH st1 Hst1) as (st2 & sent2 & -> & Hst2).
    cbn [mbind option_bind]. by eexists _, _.
Qed.

Lemma server0_inv : server_inv server0.
Proof. intros rid room. cbn. by rewrite lookup_empty. Qed.

Lemma reachable_inv (st : Server) (rid : string) (room : Room) :
  reachable st → rooms st !! rid = Some room → room_inv room.
Proof.
  intros (es & sent & Hrun) Hroom.
  destruct (run_inv es server0 server0_inv) as (st' & sent' & Hrun' & Hinv).
  rewrite Hrun in Hrun'. simplify_eq. by eapply Hinv.
Qed.

(** X4.  From the start of the server, whatever messages and
    disconnections arrive and in whatever order, no handler throws: every
    sequence of events is handled to its end.  The messages are those of
    [ClientMsg], parsed objects whose [play_card] carries a card object,
    and no identifier joined or generated is the name of a property that
    the [rooms] object inherits. *)
Theorem run_never_throws (es : list Event) :
  Forall plain_ids es → is_Some (run server0 es).
Proof.
  intros _.
  destruct (run_inv es server0 server0_inv) as (st & sent & -> & _). done.
Qed.

(** ** While nobody leaves *)

Lemma nextTurn_active (room room' : Room) :
  (∃ p, p ∈ players room ∧ isOut p = false) →
  nextTurn room = Some room' →
  ∃ p, players room' !! turn room' = Some p ∧ isOut p = false.
Proof.
  intros (p & Hp & Hout) Hnext.
  set (ps := players room) in *.
  set (start := (turn room + 1) `mod` length ps).
  apply list_elem_of_lookup in Hp as [j Hj].
  pose proof (lookup_lt_Some _ _ _ Hj) as Hjn.
  assert (start < length ps) as Hstart by (apply Nat.mod_upper_bound; lia).
  destruct (nextTurn_loop_spec ps (S (length ps)) start 0)
    as (k & Hk & Hrun & Hskip & Hstop); [done|lia|lia|].
  unfold nextTurn in Hnext. fold ps start in Hnext. rewrite Hrun in Hnext.
  injection Hnext as <-. cbn. fold ps.
  destruct Hstop as [Hfound|Hall]; [done|].
  exfalso.
  destruct (seat_reached ps start j Hstart Hjn) as (k0 & Hk0 & Hseat).
  destruct (Hskip k0) as (q & Hq & Hqout); [lia|].
  rewrite Hseat, Hj in Hq. congruence.
Qed.

Lemma deal_game_inv env (room room' : Room) :
  players room ≠ [] → deal env room = Some room' → game_inv room'.
Proof.
  intros Hne Hdeal.
  destruct (deal_hands _ _ _ Hdeal)
    as (Hhands & Hlen & Hflags & Hboard & Hstarted & Hover & Hturn).
  assert (players room' ≠ []) as Hne'.
  { intros Hnil. rewrite Hnil in Hlen. by destruct (players room). }
  split.
  - intros _ _.
    destruct (lookup_lt_is_Some_2 (players room') (turn room')) as [p Hp].
    { rewrite Hturn. by apply firstPlayer_lt. }
    exists p. split; [done|].
    by apply (Hflags p), (list_elem_of_lookup_2 _ _ _ Hp).
  - intros _ c Hc. left. unfold all_hands.
    rewrite (dealCards_perm _ _ _ Hhands).
    unfold createDeck. rewrite shuffle_loop_perm. by apply build_deck_elem.
Qed.

Lemma play_card_room_game_inv env clientId card (room room' : Room) sent :
  room_inv room → game_inv room →
  play_card_room env clientId card room = Some (room', sent) →
  game_inv room'.
Proof.
  intros Hinv [Hcur Hpack] Hplay.
  apply play_card_room_result in Hplay
    as [->|(player & board' & Hstarted & Hover & Hplayer & _ & Hcard &
            Hlegal & Hplace & Hres)]; [done|].
  set (room1 := after_card room player card board') in *.
  destruct (Hcur Hstarted Hover) as (p0 & Hp0 & Hout0).
  rewrite Hplayer in Hp0. injection Hp0 as <-.
  pose proof (lookup_lt_Some _ _ _ Hplayer) as Hlt.
  assert (players room1 !! turn room = Some (played player card)) as Hseat1
    by (cbn; by apply list_lookup_insert_eq).
  assert (∀ c, canonical c →
            c ∈ all_hands room1 ∨
            ∃ r, board room1 !! suit c = Some r ∧ (value c ≤ high r)%Z)
    as Hpack1.
  { intros c Hc.
    destruct (place_legal _ _ Hlegal) as (lo & Hplace' & _).
    rewrite Hplace in Hplace'. injection Hplace' as Hboard'.
    destruct (decide (c = card)) as [->|Hne].
    - right. cbn. rewrite Hboard', lookup_insert_eq.
      eexists. split; [done|]. simpl. lia.
    - destruct (Hpack Hstarted c Hc) as [Hheld|(r & Hr & Hle)].
      + left. unfold room1.
        rewrite (all_hands_played room player card board' (inv_nodup _ Hinv)
                   Hplayer Hcard).
        apply list_elem_of_filter. split; [|done].
        destruct (same_card card c) eqn:E; [|done].
        by apply same_card_true in E.
      + right. destruct (place_le _ _ Hlegal) as (b2 & Hplace2 & Hmono).
        rewrite Hplace in Hplace2. injection Hplace2 as <-.
        destruct (Hmono _ _ Hr) as (r' & Hr' & Hle').
        exists r'. split; [done|lia]. }
  destruct Hres as [(_ & _ & -> & Hover')|(Hmore & Hnext)].
  - split; [intros _ Hno; congruence|].
    intros _. unfold checkGameOver. by case_bool_decide.
  - assert (∃ p, p ∈ players room1 ∧ isOut p = false) as Hactive.
    { destruct Hmore as [Hcards|Htwo].
      - exists (played player card). split.
        + by eapply list_elem_of_lookup_2.
        + unfold played in *. cbn in *. by rewrite bool_decide_false.
      - unfold active in Htwo.
        destruct (filter _ (players room1)) as [|p l] eqn:Hact;
          [simpl in Htwo; lia|].
        assert (p ∈ filter (λ p, isOut p = false) (players room1)) as Hp
          by (rewrite Hact; apply list_elem_of_here).
        apply list_elem_of_filter in Hp as [? ?]. eauto. }
    pose proof (nextTurn_active _ _ Hactive Hnext) as Hcur'.
    apply nextTurn_inv in Hnext as (next & Hroom' & _).
    split; [done|]. intros _. by rewrite Hroom'.
Qed.

Lemma pass_room_game_inv env clientId (room room' : Room) sent :
  room_inv room → game_inv room →
  pass_room env clientId room = Some (room', sent) →
  game_inv room'.
Proof.
  intros Hinv [Hcur Hpack] Hpass.
  apply pass_room_result in Hpass
    as [->|(player & Hstarted & Hover & Hplayer & _ & _ & Hnext)]; [done|].
  destruct (Hcur Hstarted Hover) as (p0 & Hp0 & Hout0).
  rewrite Hplayer in Hp0. injection Hp0 as <-.
  pose proof (lookup_lt_Some _ _ _ Hplayer) as Hlt.
  assert (∃ p, p ∈ players (after_pass room player) ∧ isOut p = false)
    as Hactive.
  { eexists. split.
    - cbn. by apply list_elem_of_insert.
    - done. }
  pose proof (nextTurn_active _ _ Hactive Hnext) as Hcur'.
  apply nextTurn_inv in Hnext as (next & Hroom' & _).
  split; [done|]. intros _. rewrite Hroom'.
  assert (all_hands (set_turn (after_pass room player) next) = all_hands room)
    as ->.
  { unfold all_hands, after_pass. cbn [players set_turn].
    by rewrite (all_hands_insert _ _ _ _ Hplayer),
      (all_hands_split _ _ _ Hplayer). }
  by apply Hpack.
Qed.

Lemma lobby_game_inv (room : Room) : started room = false → game_inv room.
Proof. intros Hlobby. split; intros Hstarted; congruence. Qed.

Lemma server_game_inv_insert (st : Server) (rid : string) (room : Room) ws :
  server_game_inv st → room_inv room → game_inv room →
  server_game_inv (mkServer (<[rid := room]> (rooms st)) ws).
Proof.
  intros Hst Hroom Hgame rid' room'. cbn.
  destruct (decide (rid' = rid)) as [->|Hne].
  - rewrite lookup_insert_eq. by intros [= <-].
  - rewrite lookup_insert_ne by done. apply Hst.
Qed.

Lemma in_room_game_inv (st st' : Server) (clientId : string)
    (h : Room → option (Room * list Out)) (sent : list Out) :
  (∀ room room' s, room_inv room → game_inv room →
                   h room = Some (room', s) → room_inv room' ∧ game_inv room') →
  server_game_inv st → in_room st clientId h = Some (st', sent) →
  server_game_inv st'.
Proof.
  intros Hh Hst. unfold in_room.
  destruct (room_of st clientId) as [[rid room]|] eqn:Hroom.
  - apply room_of_inv in Hroom. destruct (Hst _ _ Hroom) as [Hinv Hgame].
    destruct (h room) as [[room' s]|] eqn:E; [|done].
    cbn [mbind option_bind]. intros [= <- _].
    destruct (Hh _ _ _ Hinv Hgame E). by apply server_game_inv_insert.
  - by intros [= <- _].
Qed.

Lemma on_message_game_inv env (st st' : Server) (clientId : string)
    (msg : ClientMsg) (sent : list Out) :
  server_game_inv st → on_message env st clientId msg = Some (st', sent) →
  server_game_inv st'.
Proof.
  intros Hst. destruct msg as [nm|roomId nm| |card| | |]; cbn [on_message].
  - intros [= <- _]. unfold create_room_handler. cbn.
    apply server_game_inv_insert;
      [done|apply fresh_room_inv|by apply lobby_game_inv].
  - intros [= Heq]. change st' with (st', sent).1. rewrite <- Heq.
    unfold join_room_handler.
    destruct (rooms st !! roomId) as [room|] eqn:Hroom; [|done].
    destruct (started room) eqn:Hstarted; [done|].
    case_bool_decide as Hfull; [done|].
    assert (server_inv st) as Hst' by (intros ???; by eapply Hst).
    pose proof (join_room_inv env st clientId roomId nm Hst') as Hjoin.
    unfold join_room_handler in Hjoin.
    rewrite Hroom, Hstarted, bool_decide_false in Hjoin by done.
    apply server_game_inv_insert; [done| |by apply lobby_game_inv].
    eapply Hjoin. cbn. apply lookup_insert_eq.
  - apply in_room_game_inv; [|done]. intros room room' s Hinv Hgame Hstart.
    split; [by eapply start_game_room_inv|].
    unfold start_game_room in Hstart.
    destruct (players room !! 0) as [host|]; [|done].
    cbn [mbind option_bind] in Hstart.
    case_bool_decide; [by simplify_eq|]. case_bool_decide; [by simplify_eq|].
    destruct (deal env room) as [r|] eqn:Hdeal; [|done]. simplify_eq/=.
    eapply deal_game_inv; [apply Hinv|done].
  - apply in_room_game_inv; [|done]. intros room room' s Hinv Hgame Hplay.
    split; [by eapply play_card_room_inv|by eapply play_card_room_game_inv].
  - apply in_room_game_inv; [|done]. intros room room' s Hinv Hgame Hpass.
    split; [by eapply pass_room_inv|by eapply pass_room_game_inv].
  - apply in_room_game_inv; [|done]. intros room room' s Hinv Hgame Hstart.
    split; [by eapply restart_room_inv|].
    unfold restart_room in Hstart.
    destruct (players room !! 0) as [host|]; [|done].
    cbn [mbind option_bind] in Hstart.
    case_bool_decide; [by simplify_eq|].
    destruct (deal env room) as [r|] eqn:Hdeal; [|done]. simplify_eq/=.
    eapply deal_game_inv; [apply Hinv|done].
  - by intros [= <- _].
Qed.

Lemma run_game_inv (es : list Event) (st st' : Server) (sent : list Out) :
  Forall is_message es → server_game_inv st →
  run st es = Some (st', sent) → server_game_inv st'.
Proof.
  revert st sent. induction es as [|e es IH]; intros st sent Hes Hst; cbn [run].
  - by intros [= <- _].
  - apply Forall_cons in Hes as [He Hes].
    destruct e as [env clientId msg|]; [|done]. cbn [step].
    destruct (on_message env st clientId msg) as [[st1 sent1]|] eqn:Hstep;
      [|done].
    cbn [mbind option_bind].
    destruct (run st1 es) as [[st2 sent2]|] eqn:Hrun; [|done].
    cbn [mbind option_bind]. intros [= <- _].
    eapply IH; [done| |done]. by eapply on_message_game_inv.
Qed.

Lemma reachable_connected_inv (st : Server) (rid : string) (room : Room) :
  reachable_connected st → rooms st !! rid = Some room →
  room_inv room ∧ game_inv room.
Proof.
  intros (es & sent & Hes & Hrun) Hroom.
  eapply (run_game_inv es server0 st sent Hes); [|done|done].
  intros rid' room'. cbn. by rewrite lookup_empty.
Qed.

(** ** Rooms the server can be in *)

(** X5.  In every state the server can reach, a room of the registry
    has at least one player and at most four. *)
Theorem reachable_seats (st : Server) (rid : string) (room : Room) :
  reachable st → rooms st !! rid = Some room →
  players room ≠ [] ∧ length (players room) ≤ 4.
Proof.
  intros Hst Hroom. pose proof (reachable_inv _ _ _ Hst Hroom) as Hinv.
  split; apply Hinv.
Qed.

(** X6.  In every reachable room no card is held twice, by one player
    or by two, and every card held is one of the 32 cards of the pack. *)
Theorem reachable_hands (st : Server) (rid : string) (room : Room) :
  reachable st → rooms st !! rid = Some room →
  NoDup (all_hands room) ∧
  ∀ c, c ∈ all_hands room → suit c ∈ suits ∧ (7 ≤ value c ≤ 14)%Z.
Proof.
  intros Hst Hroom. pose proof (reachable_inv _ _ _ Hst Hroom) as Hinv.
  split; [apply Hinv|]. intros c Hc. by apply (inv_cards _ Hinv).
Qed.

(** X7.  In every reachable room the board only has runs on the four
    suits, and a run starts at 7 and ends between 7 and 14. *)
Theorem reachable_board (st : Server) (rid s : string) (room : Room)
    (r : SuitRun) :
  reachable st → rooms st !! rid = Some room → board room !! s = Some r →
  s ∈ suits ∧ low r = 7%Z ∧ (7 ≤ high r ≤ 14)%Z.
Proof.
  intros Hst Hroom Hr. pose proof (reachable_inv _ _ _ Hst Hroom) as Hinv.
  by apply (inv_board _ Hinv).
Qed.

(** X8.  In every reachable room a card that is held is above the run
    of its suit: no card that was placed is still, or again, in a hand,
    and nobody holds a card of a suit that is complete. *)
Theorem reachable_cards_above_runs (st : Server) (rid : string) (room : Room)
    (p : Player) (c : Card) (r : SuitRun) :
  reachable st → rooms st !! rid = Some room →
  p ∈ players room → c ∈ hand p → board room !! suit c = Some r →
  (high r < value c)%Z ∧ (high r < 14)%Z.
Proof.
  intros Hst Hroom Hp Hc Hr.
  pose proof (reachable_inv _ _ _ Hst Hroom) as Hinv.
  assert (c ∈ all_hands room) as Hheld by (apply elem_of_all_hands; eauto).
  pose proof (inv_above _ Hinv _ _ Hheld Hr).
  destruct (inv_cards _ Hinv _ Hheld) as [_ ?]. lia.
Qed.

(** X9.  A reachable room that was never started is as it was created
    but for its players: the turn is 0, the board is empty, nobody holds
    a card and the game is not over. *)
Theorem reachable_lobby (st : Server) (rid : string) (room : Room) :
  reachable st → rooms st !! rid = Some room → started room = false →
  turn room = 0 ∧ board room = initBoard ∧ gameOver room = false ∧
  ∀ p, p ∈ players room → hand p = [].
Proof.
  intros Hst Hroom Hlobby.
  pose proof (reachable_inv _ _ _ Hst Hroom) as Hinv.
  destruct (inv_lobby _ Hinv Hlobby) as (? & ? & Hnil & ?).
  split_and!; try done. intros p Hp.
  destruct (hand p) as [|c h] eqn:Hh; [done|].
  assert (c ∈ all_hands room) as Hc.
  { apply elem_of_all_hands. exists p. split; [done|].
    rewrite Hh. apply list_elem_of_here. }
  rewrite Hnil in Hc. by apply elem_of_nil in Hc.
Qed.

(** X10.  In every reachable room with a game in progress the turn is
    at a seat that is taken, whoever left the room meanwhile. *)
Theorem reachable_turn (st : Server) (rid : string) (room : Room) :
  reachable st → rooms st !! rid = Some room →
  started room = true → gameOver room = false →
  ∃ p, players room !! turn room = Some p ∧ currentPlayerId room = Some (id p).
Proof.
  intros Hst Hroom Hstarted Hover.
  pose proof (reachable_inv _ _ _ Hst Hroom) as Hinv.
  destruct (lookup_lt_is_Some_2 (players room) (turn room)) as [p Hp];
    [by apply Hinv|].
  exists p. split; [done|]. unfold currentPlayerId. by rewrite Hp.
Qed.

(** X11.  In every reachable room that was started, a player is marked
    out exactly when the player's hand is empty. *)
Theorem reachable_out (st : Server) (rid : string) (room : Room) (p : Player) :
  reachable st → rooms st !! rid = Some room → started room = true →
  p ∈ players room → (isOut p = true ↔ hand p = []).
Proof.
  intros Hst Hroom Hstarted Hp.
  pose proof (reachable_inv _ _ _ Hst Hroom) as Hinv.
  by apply (inv_out _ Hinv).
Qed.

(** X12.  As long as no connection ends, in a game in progress the turn
    is at a player who is not out and still holds a card. *)
Theorem connected_turn_active (st : Server) (rid : string) (room : Room) :
  reachable_connected st → rooms st !! rid = Some room →
  started room = true → gameOver room = false →
  ∃ p, players room !! turn room = Some p ∧ isOut p = false ∧ hand p ≠ [].
Proof.
  intros Hst Hroom Hstarted Hover.
  destruct (reachable_connected_inv _ _ _ Hst Hroom) as [Hinv [Hcur _]].
  destruct (Hcur Hstarted Hover) as (p & Hp & Hout).
  exists p. split_and!; [done|done|]. intros Hnil.
  apply (inv_out _ Hinv Hstarted p) in Hnil; [congruence|].
  by eapply list_elem_of_lookup_2.
Qed.

(** X13.  As long as no connection ends, in a room that was started
    every card of the pack is either in a hand or on the table, under the
    high of the run of its suit. *)
Theorem connected_pack (st : Server) (rid : string) (room : Room) (c : Card) :
  reachable_connected st → rooms st !! rid = Some room →
  started room = true → suit c ∈ suits → (7 ≤ value c ≤ 14)%Z →
  (∃ p, p ∈ players room ∧ c ∈ hand p) ∨
  (∃ r, board room !! suit c = Some r ∧ (value c ≤ high r)%Z).
Proof.
  intros Hst Hroom Hstarted Hsuit Hrank.
  destruct (reachable_connected_inv _ _ _ Hst Hroom) as [Hinv [_ Hpack]].
  destruct (Hpack Hstarted c) as [Hheld|Hplaced]; [done| |by right].
  left. by apply elem_of_all_hands.
Qed.

(** X14.  As long as no connection ends, a game in progress is never
    stuck: some player of the room holds a card that is a legal move. *)
Theorem connected_no_deadlock (st : Server) (rid : string) (room : Room) :
  reachable_connected st → rooms st !! rid = Some room →
  started room = true → gameOver room = false →
  ∃ p c, p ∈ players room ∧ c ∈ getValidMoves (hand p) (board room).
Proof.
  intros Hst Hroom Hstarted Hover.
  destruct (reachable_connected_inv _ _ _ Hst Hroom) as [Hinv [Hcur Hpack]].
  destruct (Hcur Hstarted Hover) as (p0 & Hp0 & Hout0).
  apply list_elem_of_lookup_2 in Hp0.
  destruct (hand p0) as [|c0 h0] eqn:Hhand.
  { apply (inv_out _ Hinv Hstarted p0 Hp0) in Hhand. congruence. }
  assert (c0 ∈ all_hands room) as Hheld.
  { apply elem_of_all_hands. exists p0. split; [done|].
    rewrite Hhand. apply list_elem_of_here. }
  destruct (inv_cards _ Hinv _ Hheld) as [Hsuit Hrank].
  destruct (board room !! suit c0) as [r|] eqn:Hrun.
  - pose proof (inv_above _ Hinv _ _ Hheld Hrun) as Habove.
    destruct (inv_board _ Hinv _ _ Hrun) as (_ & _ & Hhigh).
    destruct (Hpack Hstarted (mkCard (suit c0) (high r + 1)))
      as [Hnext|(r' & Hr' & Hle)].
    + split; simpl; [done|lia].
    + apply elem_of_all_hands in Hnext as (p & Hp & Hc).
      exists p, (mkCard (suit c0) (high r + 1)). split; [done|].
      apply getValidMoves_elem. split; [done|]. right. simpl.
      split; [lia|]. exists r. split; [done|]. lia.
    + simpl in *. rewrite Hrun in Hr'. injection Hr' as <-. lia.
  - destruct (Hpack Hstarted (mkCard (suit c0) 7))
      as [Hseven|(r' & Hr' & _)].
    + split; simpl; [done|lia].
    + apply elem_of_all_hands in Hseven as (p & Hp & Hc).
      exists p, (mkCard (suit c0) 7). split; [done|].
      apply getValidMoves_elem. split; [done|]. by left.
    + simpl in Hr'. by rewrite Hrun in Hr'.
Qed.

(** ** The commands of a game *)

(** X15.  Outside a game in progress, that is before the start or once
    the game is over, [play_card] and [pass] do nothing at all: no state
    changes and no message is sent, whoever sends them. *)
Theorem no_play_outside_game (env : Env) (st : Server) (clientId rid : string)
    (room : Room) (card : Card) :
  ws_roomId st !! clientId = Some rid → rooms st !! rid = Some room →
  started room = false ∨ gameOver room = true →
  on_message env st clientId (play_card card) = Some (st, []) ∧
  on_message env st clientId pass = Some (st, []).
Proof.
  intros Hws Hroom Hout.
  assert (negb (started room) || gameOver room = true) as Hguard.
  { destruct Hout as [-> | ->]; [done|]. by destruct (started room). }
  split; cbn [on_message]; (eapply in_room_unchanged; [done|done|]).
  - unfold play_card_room. by rewrite Hguard.
  - unfold pass_room. by rewrite Hguard.
Qed.

(** X16.  A [pass] of the current player is refused when the player has a
    legal move: the sender gets the error and nothing changes.  Without a
    legal move it is accepted: the player's [passed] flag is set, hands
    and board stay as they are, the turn moves to a seat of the room and
    the new state is sent. *)
Theorem pass_of_current_player (env : Env) (st : Server)
    (clientId rid : string) (room : Room) (player : Player) :
  ws_roomId st !! clientId = Some rid → rooms st !! rid = Some room →
  started room = true → gameOver room = false →
  players room !! turn room = Some player → id player = clientId →
  (getValidMoves (hand player) (board room) ≠ [] →
   on_message env st clientId pass
   = Some (st, [(clientId, error err_cannot_pass)])) ∧
  (getValidMoves (hand player) (board room) = [] →
   ∃ room',
     on_message env st clientId pass
     = Some (mkServer (<[rid := room']> (rooms st)) (ws_roomId st),
             sendGameState env room') ∧
     players room'
     = <[turn room := mkPlayer (id player) (name player) (hand player) true
                        (isOut player)]> (players room) ∧
     board room' = board room ∧ turn room' < length (players room) ∧
     started room' = true ∧ gameOver room' = false).
Proof.
  intros Hws Hroom Hstarted Hover Hplayer Hid. split; intros Hmoves.
  - cbn [on_message]. eapply in_room_unchanged; [done|done|].
    unfold pass_room. rewrite Hstarted, Hover, Hplayer. cbn [negb orb].
    rewrite bool_decide_false by (intros ?; congruence).
    rewrite bool_decide_true; [done|].
    destruct (getValidMoves _ _); simpl; [done|lia].
  - destruct (nextTurn_total (after_pass room player)) as [room' Hnext].
    { cbn. apply insert_not_nil. intros Hnil. by rewrite Hnil in Hplayer. }
    exists room'. split.
    + cbn [on_message]. eapply in_room_Some; [done|done|].
      unfold pass_room. rewrite Hstarted, Hover, Hplayer. cbn [negb orb].
      rewrite bool_decide_false by (intros ?; congruence).
      rewrite Hmoves. rewrite bool_decide_false by (simpl; lia).
      unfold advance. unfold after_pass in Hnext.
      rewrite Hstarted, Hover in Hnext. by rewrite Hnext.
    + apply nextTurn_inv in Hnext as (next & -> & Hlt).
      cbn in *. rewrite length_insert in Hlt. done.
Qed.

Lemma find_same_card_Some (card : Card) (moves : list Card) :
  card ∈ moves → find (same_card card) moves = Some card.
Proof.
  intros Hin. destruct (find (same_card card) moves) as [c|] eqn:Hfind.
  - apply find_some in Hfind as [_ Hsame].
    apply same_card_true in Hsame. by subst.
  - by apply find_same_card_None in Hfind.
Qed.

Lemma checkGameOver_players (room : Room) :
  players (checkGameOver room).1 = players room.
Proof. unfold checkGameOver. by case_bool_decide. Qed.

(** X17.  A legal card of the current player is accepted.  The card
    goes out of the player's hand and on the board, where the run of its
    suit now ends at the card's rank and the other suits are as before,
    and [passed] is cleared.  The game is over exactly when this was the
    player's last card and at most one player is still in; the turn then
    stays where it is and the loser is set.  Otherwise the turn moves to
    a seat of the room.  A player who has no card left is announced to
    the room, and the new state is sent. *)
Theorem play_card_accepted (env : Env) (st : Server) (clientId rid : string)
    (room : Room) (player : Player) (card : Card) :
  ws_roomId st !! clientId = Some rid → rooms st !! rid = Some room →
  started room = true → gameOver room = false →
  players room !! turn room = Some player → id player = clientId →
  card ∈ getValidMoves (hand player) (board room) →
  ∃ room',
    on_message env st clientId (play_card card)
    = Some (mkServer (<[rid := room']> (rooms st)) (ws_roomId st),
            (if decide (hand (played player card) = [])
             then broadcast env room' (player_out (name player)) else [])
            ++ sendGameState env room') ∧
    (∃ r, board room' !! suit card = Some r ∧ high r = value card) ∧
    (∀ s, s ≠ suit card → board room' !! s = board room !! s) ∧
    players room' = <[turn room := played player card]> (players room) ∧
    (card ∉ hand (played player card)) ∧
    (gameOver room' = true ↔
     hand (played player card) = [] ∧ length (active room') ≤ 1) ∧
    (gameOver room' = true →
     turn room' = turn room ∧ loser room' = Some (loser_name (active room'))) ∧
    (gameOver room' = false → turn room' < length (players room)).
Proof.
  intros Hws Hroom Hstarted Hover Hplayer Hid Hcard.
  pose proof Hcard as Hmove.
  apply getValidMoves_elem in Hmove as [Hheld Hlegal].
  destruct (place_legal _ _ Hlegal) as (lo & Hplace & _).
  set (board' := <[suit card := mkRun lo (value card)]> (board room)) in *.
  set (room1 := after_card room player card board').
  assert (players room1 ≠ []) as Hne.
  { cbn. apply insert_not_nil. intros Hnil. by rewrite Hnil in Hplayer. }
  assert (card ∉ hand (played player card)) as Hgone.
  { cbn. intros Hin. apply list_elem_of_filter in Hin as [Hne' _].
    assert (same_card card card = true) by (by apply same_card_true).
    congruence. }
  assert (∀ room' sent,
    play_card_room env clientId card room = Some (room', sent) →
    on_message env st clientId (play_card card)
    = Some (mkServer (<[rid := room']> (rooms st)) (ws_roomId st), sent))
    as Hserver.
  { intros room' sent Hplay. cbn [on_message].
    by eapply in_room_Some. }
  assert (∀ room', board room' = board' →
    (∃ r, board room' !! suit card = Some r ∧ high r = value card) ∧
    (∀ s, s ≠ suit card → board room' !! s = board room !! s)) as Hboard.
  { intros room' ->. split.
    - eexists. unfold board'. rewrite lookup_insert_eq. done.
    - intros s Hs. unfold board'. by rewrite lookup_insert_ne. }
  assert (play_card_room env clientId card room
    = if bool_decide (length (hand (played player card)) = 0) then
        let sent := broadcast env room1 (player_out (name player)) in
        let '(room2, over) := checkGameOver room1 in
        if over then Some (room2, sent ++ sendGameState env room2)
        else advance env room2 sent
      else advance env room1 []) as Hplay.
  { unfold play_card_room. rewrite Hstarted, Hover, Hplayer. cbn [negb orb].
    rewrite bool_decide_false by (intros ?; congruence).
    rewrite (find_same_card_Some _ _ Hcard), Hplace. cbn [mbind option_bind].
    unfold room1, after_card, played. cbn [hand].
    rewrite Hstarted, Hover.
    case_bool_decide as Hlen.
    - apply length_zero_iff_nil in Hlen as Hnil.
      by rewrite Hnil, bool_decide_true.
    - rewrite bool_decide_false by (intros Hnil; by rewrite Hnil in Hlen).
      done. }
  revert Hplay. case_bool_decide as Hlen.
  - apply length_zero_iff_nil in Hlen as Hnil.
    destruct (checkGameOver room1) as [room2 over] eqn:Hcheck.
    unfold checkGameOver in Hcheck. fold (active room1) in Hcheck.
    case_bool_decide as Hact; injection Hcheck as <- <-; cbn zeta.
    + intros Hplay. rewrite (Hserver _ _ Hplay).
      exists (mkRoom (players room1) (deck room1) (board room1)
                (started room1) (turn room1) true
                (Some (loser_name (active room1)))).
      rewrite decide_True by done. split; [reflexivity|].
      split_and!; try done; try (by apply Hboard).
    + destruct (nextTurn_total room1 Hne) as [room' Hnext].
      unfold advance. rewrite Hnext. cbn [mbind option_bind].
      apply nextTurn_inv in Hnext as (next & Hroom' & Hlt).
      intros Hplay. exists room'. rewrite decide_True by done.
      assert (broadcast env room1 (player_out (name player))
              = broadcast env room' (player_out (name player))) as <-
        by (by rewrite Hroom').
      rewrite (Hserver _ _ Hplay). split; [done|]. rewrite Hroom'.
      split_and!; try done; try (by apply Hboard).
      * cbn. rewrite Hover. split; [done|]. intros [_ Hfew].
        unfold active in *. cbn in *. lia.
      * cbn. rewrite Hover. done.
      * intros _. cbn in *. by rewrite length_insert in Hlt.
  - assert (hand (played player card) ≠ []) as Hcards
      by (intros Hnil; by rewrite Hnil in Hlen).
    destruct (nextTurn_total room1 Hne) as [room' Hnext].
    unfold advance. rewrite Hnext. cbn [mbind option_bind].
    apply nextTurn_inv in Hnext as (next & Hroom' & Hlt).
    intros Hplay. exists room'. rewrite decide_False by done.
    rewrite (Hserver _ _ Hplay). split; [done|]. rewrite Hroom'.
    split_and!; try done; try (by apply Hboard).
    + cbn. rewrite Hover. split; [done|]. by intros [? _].
    + cbn. rewrite Hover. done.
    + intros _. cbn in *. by rewrite length_insert in Hlt.
Qed.

(** X18.  Only the connection of seat 0 deals.  From anybody else a
    [start_game] is answered with the host-only error and a [restart]
    with nothing, and from the host of a room with a single player a
    [start_game] is answered with the two-players error; in all three
    cases the state is as before, whatever the room is in. *)
Theorem deal_needs_host (env : Env) (st : Server) (clientId rid : string)
    (room : Room) (host : Player) :
  ws_roomId st !! clientId = Some rid → rooms st !! rid = Some room →
  players room !! 0 = Some host →
  (id host ≠ clientId →
   on_message env st clientId start_game
   = Some (st, [(clientId, error err_host_only)]) ∧
   on_message env st clientId restart = Some (st, [])) ∧
  (id host = clientId → length (players room) < 2 →
   on_message env st clientId start_game
   = Some (st, [(clientId, error err_two_players)])).
Proof.
  intros Hws Hroom Hhost. split.
  - intros Hid. split; cbn [on_message];
      (eapply in_room_unchanged; [done|done|]).
    + unfold start_game_room. rewrite Hhost. cbn [mbind option_bind].
      by rewrite bool_decide_true.
    + unfold restart_room. rewrite Hhost. cbn [mbind option_bind].
      by rewrite bool_decide_true.
  - intros Hid Hlen. cbn [on_message].
    eapply in_room_unchanged; [done|done|].
    unfold start_game_room. rewrite Hhost. cbn [mbind option_bind].
    rewrite bool_decide_false by (intros ?; congruence).
    by rewrite bool_decide_true.
Qed.

(** X19.  When a connection ends, every player it had in its room is
    taken out, the others keep their order and everything they hold, and
    no other room is touched.  The room is removed exactly when nobody is
    left in it; if it stays with a game in progress, the turn is at a
    seat of the room afterwards. *)
Theorem on_close_leaves (env : Env) (st : Server) (clientId rid : string)
    (room : Room) :
  ws_roomId st !! clientId = Some rid → rooms st !! rid = Some room →
  let st' := (on_close env st clientId).1 in
  let ps := filter (λ p, id p ≠ clientId) (players room) in
  (∀ rid', rid' ≠ rid → rooms st' !! rid' = rooms st !! rid') ∧
  (ps = [] → rooms st' !! rid = None) ∧
  (ps ≠ [] →
   ∃ room', rooms st' !! rid = Some room' ∧ players room' = ps ∧
     board room' = board room ∧ started room' = started room ∧
     gameOver room' = gameOver room ∧ loser room' = loser room ∧
     (turn room' = turn room ∨ turn room' = 0) ∧
     (started room = true → gameOver room = false →
      turn room' < length (players room'))).
Proof.
  intros Hws Hroom st' ps. unfold st', on_close.
  rewrite (room_of_Some _ _ _ _ Hws Hroom). fold ps.
  case_bool_decide as Hempty.
  - apply length_zero_iff_nil in Hempty. cbn. split_and!.
    + intros rid' Hne. by rewrite lookup_delete_ne.
    + intros _. apply lookup_delete_eq.
    + intros Hne. done.
  - assert (ps ≠ []) as Hne by (intros Hnil; by rewrite Hnil in Hempty).
    cbn [started gameOver turn players].
    destruct (started room && negb (gameOver room)) eqn:Hplaying.
    + apply andb_true_iff in Hplaying as [Hs Ho]. apply negb_true_iff in Ho.
      case_bool_decide as Hclamp; cbn; (split_and!;
        [intros rid' Hne'; by rewrite lookup_insert_ne|done|]);
        intros _; eexists; (split; [apply lookup_insert_eq|]); cbn;
        split_and!; try done; try (by left); try (by right);
        intros _ _; [destruct ps; simpl; [done|lia]|lia].
    + cbn. split_and!; [intros rid' Hne'; by rewrite lookup_insert_ne|done|].
      intros _. eexists. split; [apply lookup_insert_eq|]. cbn.
      split_and!; try done; [by left|].
      intros Hs Ho. by rewrite Hs, Ho in Hplaying.
Qed.

(** X20.  The state messages of [sendGameState] go to the open
    connections of the players of the room and to nobody else; each
    carries the hand of the player it goes to; and it lists moves only
    for the player whose turn it is in a started room, all of them cards
    of that hand. *)
Theorem sendGameState_private (env : Env) (room : Room) (clientId : string)
    (msg : ServerMsg) :
  (clientId, msg) ∈ sendGameState env room →
  ∃ p gs, p ∈ players room ∧ id p = clientId ∧ readyState env clientId = 1 ∧
    msg = game_state gs ∧ gs_myHand gs = hand p ∧
    (∀ c, c ∈ gs_validMoves gs → c ∈ hand p) ∧
    (gs_validMoves gs ≠ [] →
     started room = true ∧ currentPlayerId room = Some clientId).
Proof.
  unfold sendGameState. intros Hin.
  apply list_elem_of_fmap in Hin as (p & [= -> ->] & Hp).
  apply list_elem_of_filter in Hp as [Hopen Hp].
  exists p, (state_for room p). split_and!; try done.
  - cbn. intros c.
    destruct (started room && bool_decide (currentPlayerId room = Some (id p)));
      [|by rewrite elem_of_nil].
    rewrite getValidMoves_elem. tauto.
  - cbn. destruct (started room) eqn:Hs; cbn; [|done].
    case_bool_decide; done.
Qed.

(** X21.  After a deal the turn is at the first seat that holds the 7
    of spades, and that card is a legal move for the player: the game
    always opens with a player who can play. *)
Theorem deal_first_player (env : Env) (room room' : Room) :
  deal env room = Some room' →
  ∃ p, players room' !! turn room' = Some p ∧
       mkCard "♠" 7 ∈ hand p ∧
       mkCard "♠" 7 ∈ getValidMoves (hand p) (board room') ∧
       ∀ i q, i < turn room' → players room' !! i = Some q →
              mkCard "♠" 7 ∉ hand q.
Proof.
  intros Hdeal.
  destruct (deal_hands _ _ _ Hdeal)
    as (Hhands & Hlen & Hflags & Hboard & Hstarted & Hover & Hturn).
  assert (∀ q, holds_first_card q = true ↔ mkCard "♠" 7 ∈ hand q) as Hholds.
  { intros q. unfold holds_first_card. rewrite existsb_exists. split.
    - intros (c & Hc & Hsv). apply andb_true_iff in Hsv as [Hs Hv].
      apply bool_decide_eq_true in Hs, Hv. apply list_elem_of_In in Hc.
      destruct c; simpl in *. by subst.
    - intros Hc. exists (mkCard "♠" 7). split; [by apply list_elem_of_In|].
      cbn. by rewrite !bool_decide_true. }
  assert (mkCard "♠" 7 ∈ all_hands room') as Hheld.
  { unfold all_hands. rewrite (dealCards_perm _ _ _ Hhands).
    unfold createDeck. rewrite shuffle_loop_perm. apply build_deck_elem.
    cbn. split; [|lia]. apply list_elem_of_here. }
  apply elem_of_all_hands in Hheld as (p0 & Hp0 & Hc0).
  unfold firstPlayer in Hturn.
  destruct (list_find _ (players room')) as [[i p]|] eqn:Hfind.
  - apply list_find_Some in Hfind as (Hp & Hfirst & Hbefore).
    cbn in Hturn. rewrite Hturn. exists p.
    apply Hholds in Hfirst. split_and!; [done|done| |].
    + apply getValidMoves_elem. split; [done|]. left.
      split; [done|]. by rewrite Hboard.
    + intros j q Hj Hq Hcq. apply (Hbefore j q Hq Hj). by apply Hholds.
  - exfalso. apply list_find_None in Hfind.
    rewrite Forall_forall in Hfind. apply (Hfind p0 Hp0). by apply Hholds.
Qed.

(** ** More on legal moves *)

Lemma foldl_valid_step_sublist board (hand moves : list Card) :
  ∃ more, foldl (valid_step board) moves hand = moves ++ more ∧
          more `sublist_of` hand.
Proof.
  revert moves. induction hand as [|card hand IH]; intros moves; simpl.
  - exists []. by rewrite app_nil_r.
  - destruct (IH (valid_step board moves card)) as (more & -> & Hsub).
    unfold valid_step.
    assert (∀ b : bool, ∃ more',
      (if b then moves ++ [card] else moves) ++ more = moves ++ more' ∧
      more' `sublist_of` card :: hand) as Hcase.
    { intros [|].
      - exists (card :: more). rewrite <- app_assoc. split; [done|].
        by apply sublist_skip.
      - exists more. split; [done|]. by apply sublist_cons. }
    case_bool_decide; destruct (board !! suit card) as [b|].
    + apply (Hcase false).
    + apply (Hcase true).
    + apply (Hcase (bool_decide (value card = high b + 1)%Z
                    && bool_decide (high b < 14)%Z)).
    + apply (Hcase false).
Qed.

Lemma foldl_valid_step_sevens (hand moves : list Card) :
  foldl (valid_step initBoard) moves hand
  = moves ++ filter (λ c, value c = 7%Z) hand.
Proof.
  revert moves. induction hand as [|card hand IH]; intros moves; simpl.
  - by rewrite app_nil_r.
  - rewrite IH. unfold valid_step, initBoard. rewrite lookup_empty.
    case_bool_decide.
    + rewrite filter_cons_True by done. by rewrite <- app_assoc.
    + by rewrite filter_cons_False.
Qed.

(** X22.  The legal moves are cards of the hand, in the order of the
    hand and none twice that is not twice in the hand; on the empty board
    they are exactly the sevens of the hand; and two legal moves of the
    same suit are the same card, so at most one rank is open per suit. *)
Theorem getValidMoves_shape (hand : list Card) (board : Board) :
  getValidMoves hand board `sublist_of` hand ∧
  getValidMoves hand initBoard = filter (λ c, value c = 7%Z) hand ∧
  ∀ c1 c2, c1 ∈ getValidMoves hand board → c2 ∈ getValidMoves hand board →
           suit c1 = suit c2 → c1 = c2.
Proof.
  split_and!.
  - unfold getValidMoves.
    by destruct (foldl_valid_step_sublist board hand []) as (more & -> & ?).
  - unfold getValidMoves. by rewrite foldl_valid_step_sevens.
  - intros c1 c2 H1 H2 Hsuit.
    apply getValidMoves_elem in H1 as [_ H1]. apply getValidMoves_elem in H2 as [_ H2].
    assert (value c1 = value c2) as Hvalue.
    { unfold legal in H1, H2. rewrite Hsuit in H1.
      destruct H1 as [[? Hn1]|[? (b1 & Hb1 & ? & _)]];
        destruct H2 as [[? Hn2]|[? (b2 & Hb2 & ? & _)]]; try congruence.
      rewrite Hb1 in Hb2. injection Hb2 as <-. lia. }
    destruct c1, c2; simpl in *. congruence.
Qed.

(** ** Every order can be shuffled *)

Lemma swap_length (deck : list Card) (i j : nat) :
  length (swap deck i j) = length deck.
Proof.
  unfold swap. destruct (deck !! j); [|done]. destruct (deck !! i); [|done].
  by rewrite !length_insert.
Qed.

Lemma shuffle_loop_length rnd (k i : nat) (deck : list Card) :
  length (shuffle_loop rnd k i deck) = length deck.
Proof.
  revert k deck. induction i as [|i IH]; intros k deck; simpl; [done|].
  by rewrite IH, swap_length.
Qed.

Lemma swap_app (deck rest : list Card) (i j : nat) :
  i < length deck → j < length deck →
  swap (deck ++ rest) i j = swap deck i j ++ rest.
Proof.
  intros Hi Hj. unfold swap. rewrite !lookup_app_l by done.
  destruct (lookup_lt_is_Some_2 deck j Hj) as [dj ->].
  destruct (lookup_lt_is_Some_2 deck i Hi) as [di ->].
  rewrite insert_app_l by done.
  rewrite insert_app_l by (by rewrite length_insert). done.
Qed.

(** The loop from [i] down leaves what lies beyond [i] alone. *)
Lemma shuffle_loop_app rnd (k i : nat) (deck rest : list Card) :
  i < length deck →
  shuffle_loop rnd k i (deck ++ rest) = shuffle_loop rnd k i deck ++ rest.
Proof.
  revert k deck. induction i as [|i IH]; intros k deck Hi;
    cbn [shuffle_loop]; [done|].
  pose proof (floor_mul_le (rnd k) (S i)) as Hj.
  rewrite swap_app by lia. apply IH. rewrite swap_length. lia.
Qed.

Lemma shuffle_loop_shift rnd (k i : nat) (deck : list Card) :
  shuffle_loop rnd (S k) i deck = shuffle_loop (λ n, rnd (S n)) k i deck.
Proof.
  revert k deck. induction i as [|i IH]; intros k deck; simpl; [done|].
  apply IH.
Qed.

Lemma shuffle_loop_ext rnd1 rnd2 (k i : nat) (deck : list Card) :
  (∀ n, rnd1 n = rnd2 n) →
  shuffle_loop rnd1 k i deck = shuffle_loop rnd2 k i deck.
Proof.
  intros Hext. revert k deck.
  induction i as [|i IH]; intros k deck; cbn [shuffle_loop]; [done|].
  by rewrite Hext, IH.
Qed.

Lemma last_split (l : list Card) (n : nat) (y : Card) :
  length l = S n → l !! n = Some y → l = take n l ++ [y].
Proof.
  intros Hlen Hy. rewrite <- (take_drop_middle l n y Hy) at 1.
  f_equal. f_equal. apply nil_length_inv. rewrite length_drop. lia.
Qed.

Lemma shuffle_loop_reaches (n : nat) (deck target : list Card) :
  length deck = S n → target ≡ₚ deck →
  ∃ rnd, shuffle_loop rnd 0 n deck = target.
Proof.
  revert deck target. induction n as [|n IH]; intros deck target Hlen Hperm.
  - exists (λ _, mkDraw 0 1 eq_refl). simpl.
    destruct deck as [|x [|? ?]]; simplify_eq/=.
    by apply Permutation_singleton_r in Hperm.
  - assert (length target = S (S n)) as Hlen' by (by rewrite Hperm).
    destruct (lookup_lt_is_Some_2 target (S n)) as [y Hy]; [lia|].
    pose proof (last_split _ _ _ Hlen' Hy) as Htarget.
    assert (y ∈ deck) as Hin.
    { rewrite <- Hperm. by eapply list_elem_of_lookup_2. }
    apply list_elem_of_lookup in Hin as [j Hj].
    pose proof (lookup_lt_Some _ _ _ Hj) as Hjlt.
    destruct (lookup_lt_is_Some_2 deck (S n)) as [z Hz]; [lia|].
    set (deck' := swap deck (S n) j).
    assert (deck' !! S n = Some y) as Hlast.
    { unfold deck', swap. rewrite Hj, Hz.
      destruct (decide (j = S n)) as [->|Hne].
      - rewrite list_lookup_insert_eq by (rewrite length_insert; lia).
        congruence.
      - rewrite list_lookup_insert_ne by done.
        by rewrite list_lookup_insert_eq by lia. }
    assert (length deck' = S (S n)) as Hlen1
      by (unfold deck'; by rewrite swap_length).
    pose proof (last_split _ _ _ Hlen1 Hlast) as Hdeck'.
    assert (take (S n) target ≡ₚ take (S n) deck') as Hperm'.
    { apply (Permutation_app_inv_r [y]).
      rewrite <- Htarget, <- Hdeck'. unfold deck'. by rewrite swap_perm. }
    destruct (IH (take (S n) deck') (take (S n) target)) as [rnd' Hrnd'];
      [rewrite length_take; lia|done|].
    assert (j < S n + 1) as Hj' by lia.
    apply Nat.ltb_lt in Hj' as Hdraw.
    exists (λ k, match k with
                 | 0 => mkDraw j (S n + 1) Hdraw
                 | S k' => rnd' k'
                 end).
    cbn [shuffle_loop].
    assert (floor_mul (mkDraw j (S n + 1) Hdraw) (S n + 1) = j) as ->
      by (unfold floor_mul; cbn [num den]; apply Nat.div_mul; lia).
    fold deck'. rewrite shuffle_loop_shift.
    rewrite (shuffle_loop_ext _ rnd') by done. rewrite Hdeck'.
    rewrite shuffle_loop_app by (rewrite length_take; lia).
    by rewrite Hrnd', <- Htarget.
Qed.

(** X23.  Every order of the 32 cards can come out of [createDeck]: for
    each rearrangement of the pack there are results of [Math.random]
    with which the shuffle ends in it. *)
Theorem createDeck_reaches (target : list Card) :
  target ≡ₚ build_deck → ∃ rnd, createDeck rnd = target.
Proof.
  intros Hperm. unfold createDeck.
  by apply shuffle_loop_reaches.
Qed.

(** X24.  In every reachable room the game is over only after a start,
    and then at most one player is not out. *)
Theorem reachable_over (st : Server) (rid : string) (room : Room) :
  reachable st → rooms st !! rid = Some room → gameOver room = true →
  started room = true ∧ length (active room) ≤ 1.
Proof.
  intros Hst Hroom Hover.
  pose proof (reachable_inv _ _ _ Hst Hroom) as Hinv.
  split; [|by apply (inv_over _ Hinv)].
  destruct (started room) eqn:Hs; [done|].
  destruct (inv_lobby _ Hinv Hs) as (_ & _ & _ & ?). congruence.
Qed.

(** ** An accepted card leaves the game *)

Lemma play_card_room_eq env clientId card (room : Room) (player : Player)
    (board' : Board) :
  started room = true → gameOver room = false →
  players room !! turn room = Some player → id player = clientId →
  card ∈ getValidMoves (hand player) (board room) →
  place (board room) card = Some board' →
  play_card_room env clientId card room
  = if bool_decide (length (hand (played player card)) = 0) then
      let room1 := after_card room player card board' in
      let sent := broadcast env room1 (player_out (name player)) in
      let '(room2, over) := checkGameOver room1 in
      if over then Some (room2, sent ++ sendGameState env room2)
      else advance env room2 sent
    else advance env (after_card room player card board') [].
Proof.
  intros Hstarted Hover Hplayer Hid Hcard Hplace.
  unfold play_card_room. rewrite Hstarted, Hover, Hplayer. cbn [negb orb].
  rewrite bool_decide_false by (intros ?; congruence).
  rewrite (find_same_card_Some _ _ Hcard), Hplace. cbn [mbind option_bind].
  unfold after_card, played. cbn [hand]. rewrite Hstarted, Hover.
  case_bool_decide as Hlen.
  - apply length_zero_iff_nil in Hlen as Hnil.
    by rewrite Hnil, bool_decide_true.
  - rewrite bool_decide_false by (intros Hnil; by rewrite Hnil in Hlen).
    done.
Qed.

Lemma play_card_room_accept env clientId card (room : Room) (player : Player) :
  started room = true → gameOver room = false →
  players room !! turn room = Some player → id player = clientId →
  card ∈ getValidMoves (hand player) (board room) →
  ∃ board' room' sent,
    place (board room) card = Some board' ∧
    play_card_room env clientId card room = Some (room', sent) ∧
    players room' = players (after_card room player card board') ∧
    board room' = board'.
Proof.
  intros Hstarted Hover Hplayer Hid Hcard.
  pose proof Hcard as Hmove.
  apply getValidMoves_elem in Hmove as [Hheld Hlegal].
  destruct (place_legal _ _ Hlegal) as (lo & Hplace & _).
  eexists.
  rewrite (play_card_room_eq env clientId card room player _
             Hstarted Hover Hplayer Hid Hcard Hplace).
  set (room1 := after_card room player card _).
  assert (players room1 ≠ []) as Hne.
  { cbn. apply insert_not_nil. intros Hnil. by rewrite Hnil in Hplayer. }
  assert (∀ s, ∃ room' sent,
    advance env room1 s = Some (room', sent) ∧
    players room' = players room1 ∧ board room' = board room1) as Hadv.
  { intros s. destruct (nextTurn_total room1 Hne) as [room' Hnext].
    unfold advance. rewrite Hnext. cbn [mbind option_bind].
    apply nextTurn_inv in Hnext as (next & -> & _). by eexists _, _. }
  case_bool_decide.
  - cbn zeta. unfold checkGameOver. case_bool_decide.
    + eexists _, _. split; [exact Hplace|]. split; [reflexivity|]. done.
    + destruct (Hadv (broadcast env room1 (player_out (name player))))
        as (room' & sent & Hrun & Hps & Hbd).
      exists room', sent. split; [exact Hplace|]. split; [exact Hrun|]. done.
  - destruct (Hadv []) as (room' & sent & Hrun & Hps & Hbd).
    exists room', sent. split; [exact Hplace|]. split; [exact Hrun|]. done.
Qed.

Lemma filter_takes_one (card : Card) (l : list Card) :
  NoDup l → card ∈ l →
  length (filter (λ c, same_card card c = false) l) + 1 = length l.
Proof.
  induction l as [|c l IH]; intros Hnodup Hin.
  - by apply elem_of_nil in Hin.
  - apply NoDup_cons in Hnodup as [Hc Hnodup].
    apply elem_of_cons in Hin as [->|Hin].
    + rewrite filter_cons_False.
      * rewrite filter_other_cards by done. simpl. lia.
      * assert (same_card c c = true) by (by apply same_card_true). congruence.
    + rewrite filter_cons_True.
      * simpl. rewrite <- (IH Hnodup Hin). lia.
      * destruct (same_card card c) eqn:E; [|done].
        apply same_card_true in E. congruence.
Qed.

(** X25.  In every reachable room an accepted card leaves the game: after
    the play exactly one card fewer is held in the room, and the cards
    held are those held before except the card played. *)
Theorem play_card_takes_one_card (env : Env) (st : Server)
    (clientId rid : string) (room : Room) (player : Player) (card : Card) :
  reachable st →
  ws_roomId st !! clientId = Some rid → rooms st !! rid = Some room →
  started room = true → gameOver room = false →
  players room !! turn room = Some player → id player = clientId →
  card ∈ getValidMoves (hand player) (board room) →
  ∃ st' sent room',
    on_message env st clientId (play_card card) = Some (st', sent) ∧
    rooms st' !! rid = Some room' ∧
    length (all_hands room') + 1 = length (all_hands room) ∧
    ∀ c, c ∈ all_hands room' ↔ c ∈ all_hands room ∧ c ≠ card.
Proof.
  intros Hst Hws Hroom Hstarted Hover Hplayer Hid Hcard.
  pose proof (reachable_inv _ _ _ Hst Hroom) as Hinv.
  destruct (play_card_room_accept env clientId card room player
              Hstarted Hover Hplayer Hid Hcard)
    as (board' & room' & sent & _ & Hplay & Hps & _).
  pose proof Hcard as Hheld. apply getValidMoves_elem in Hheld as [Hheld _].
  assert (all_hands room'
          = filter (λ c, same_card card c = false) (all_hands room)) as Hhands.
  { rewrite <- (all_hands_played room player card board' (inv_nodup _ Hinv)
                  Hplayer Hheld).
    unfold all_hands. by rewrite Hps. }
  eexists _, sent, room'. split_and!.
  - cbn [on_message]. by eapply in_room_Some.
  - cbn. apply lookup_insert_eq.
  - rewrite Hhands. apply filter_takes_one; [apply Hinv|].
    apply elem_of_all_hands. exists player. split; [|done].
    by eapply list_elem_of_lookup_2.
  - intros c. rewrite Hhands, list_elem_of_filter. split.
    + intros [Hno Hc]. split; [done|]. intros ->.
      assert (same_card card card = true) by (by apply same_card_true).
      congruence.
    + intros [Hc Hne]. split; [|done].
      destruct (same_card card c) eqn:E; [|done].
      apply same_card_true in E. congruence.
Qed.

(** ** Errors *)

Lemma broadcast_no_error env (room : Room) (msg : ServerMsg) c text :
  (c, error text) ∈ broadcast env room msg → msg = error text.
Proof.
  unfold broadcast. intros Hin.
  apply list_elem_of_fmap in Hin as (p & Heq & _). congruence.
Qed.

Lemma sendGameState_no_error env (room : Room) c text :
  (c, error text) ∉ sendGameState env room.
Proof.
  unfold sendGameState. intros Hin.
  apply list_elem_of_fmap in Hin as (p & Heq & _). congruence.
Qed.

Lemma advance_no_error env (room room' : Room) (sent sent' : list Out) c text :
  advance env room sent = Some (room', sent') →
  (c, error text) ∈ sent' → (c, error text) ∈ sent.
Proof.
  unfold advance. destruct (nextTurn room) as [r|]; [|done].
  cbn. intros [= <- <-] Hin. apply elem_of_app in Hin as [?|Hin]; [done|].
  by apply sendGameState_no_error in Hin.
Qed.

Lemma deal_sent_no_error env (room : Room) c text :
  (c, error text)
  ∉ broadcast env room game_started ++ sendGameState env room.
Proof.
  intros Hin. apply elem_of_app in Hin as [Hin|Hin].
  - by apply broadcast_no_error in Hin.
  - by apply sendGameState_no_error in Hin.
Qed.

Lemma start_game_room_refusal env clientId :
  error_is_refusal clientId (start_game_room env clientId).
Proof.
  intros room room' sent c text. unfold start_game_room.
  destruct (players room !! 0) as [host|]; [|done]. cbn [mbind option_bind].
  case_bool_decide.
  { intros [= <- <-] Hin. apply list_elem_of_singleton in Hin. by simplify_eq. }
  case_bool_decide.
  { intros [= <- <-] Hin. apply list_elem_of_singleton in Hin. by simplify_eq. }
  destruct (deal env room) as [r|]; [|done]. cbn. intros [= <- <-] Hin.
  by apply deal_sent_no_error in Hin.
Qed.

Lemma restart_room_refusal env clientId :
  error_is_refusal clientId (restart_room env clientId).
Proof.
  intros room room' sent c text. unfold restart_room.
  destruct (players room !! 0) as [host|]; [|done]. cbn [mbind option_bind].
  case_bool_decide.
  { intros [= <- <-] Hin. by apply elem_of_nil in Hin. }
  destruct (deal env room) as [r|]; [|done]. cbn. intros [= <- <-] Hin.
  by apply deal_sent_no_error in Hin.
Qed.

Lemma pass_room_refusal env clientId :
  error_is_refusal clientId (pass_room env clientId).
Proof.
  intros room room' sent c text. unfold pass_room.
  destruct (negb (started room) || gameOver room).
  { intros [= <- <-] Hin. by apply elem_of_nil in Hin. }
  destruct (players room !! turn room) as [player|].
  2: { intros [= <- <-] Hin. by apply elem_of_nil in Hin. }
  case_bool_decide.
  { intros [= <- <-] Hin. by apply elem_of_nil in Hin. }
  case_bool_decide.
  { intros [= <- <-] Hin. apply list_elem_of_singleton in Hin. by simplify_eq. }
  intros Hadv Hin. apply (advance_no_error _ _ _ _ _ _ _ Hadv) in Hin.
  by apply elem_of_nil in Hin.
Qed.

Lemma play_card_room_refusal env clientId card :
  error_is_refusal clientId (play_card_room env clientId card).
Proof.
  intros room room' sent c text. unfold play_card_room.
  destruct (negb (started room) || gameOver room).
  { intros [= <- <-] Hin. by apply elem_of_nil in Hin. }
  destruct (players room !! turn room) as [player|].
  2: { intros [= <- <-] Hin. by apply elem_of_nil in Hin. }
  case_bool_decide.
  { intros [= <- <-] Hin. by apply elem_of_nil in Hin. }
  destruct (find _ _) as [found|].
  2: { intros [= <- <-] Hin. apply list_elem_of_singleton in Hin.
       by simplify_eq. }
  destruct (place _ _) as [board'|]; [|done]. cbn [mbind option_bind].
  case_bool_decide.
  - destruct (checkGameOver _) as [room2 over]. destruct over.
    + intros [= <- <-] Hin. apply elem_of_app in Hin as [Hin|Hin].
      * by apply broadcast_no_error in Hin.
      * by apply sendGameState_no_error in Hin.
    + intros Hadv Hin. apply (advance_no_error _ _ _ _ _ _ _ Hadv) in Hin.
      by apply broadcast_no_error in Hin.
  - intros Hadv Hin. apply (advance_no_error _ _ _ _ _ _ _ Hadv) in Hin.
    by apply elem_of_nil in Hin.
Qed.

Lemma in_room_refusal (st st' : Server) (clientId : string)
    (h : Room → option (Room * list Out)) (sent : list Out) c text :
  error_is_refusal clientId h →
  in_room st clientId h = Some (st', sent) → (c, error text) ∈ sent →
  st' = st ∧ sent = [(clientId, error text)].
Proof.
  intros Hh. unfold in_room.
  destruct (room_of st clientId) as [[rid room]|] eqn:Hroom.
  - apply room_of_inv in Hroom.
    destruct (h room) as [[room' s]|] eqn:E; [|done].
    cbn [mbind option_bind]. intros [= <- <-] Hin.
    destruct (Hh _ _ _ _ _ E Hin) as [-> ->]. split; [|done].
    rewrite insert_id by done. by destruct st.
  - intros [= <- <-] Hin. by apply elem_of_nil in Hin.
Qed.

(** X26.  Whatever the message, when the server answers with an error
    the error is all it sends, it goes to the sender, and nothing in the
    server has changed. *)
Theorem error_is_all (env : Env) (st st' : Server) (clientId : string)
    (msg : ClientMsg) (sent : list Out) (c text : string) :
  on_message env st clientId msg = Some (st', sent) →
  (c, error text) ∈ sent →
  c = clientId ∧ st' = st ∧ sent = [(clientId, error text)].
Proof.
  assert (∀ h, error_is_refusal clientId h →
    in_room st clientId h = Some (st', sent) → (c, error text) ∈ sent →
    c = clientId ∧ st' = st ∧ sent = [(clientId, error text)]) as Hin_room.
  { intros h Hh Hrun Hin.
    destruct (in_room_refusal _ _ _ _ _ _ _ Hh Hrun Hin) as [-> ->].
    apply list_elem_of_singleton in Hin. by simplify_eq. }
  destruct msg as [nm|roomId nm| |card| | |]; cbn [on_message].
  - unfold create_room_handler. intros [= <- <-] Hin.
    apply elem_of_cons in Hin as [?|Hin]; [done|].
    by apply broadcast_no_error in Hin.
  - unfold join_room_handler.
    destruct (rooms st !! roomId) as [room|].
    2: { intros [= <- <-] Hin. apply list_elem_of_singleton in Hin.
         by simplify_eq. }
    destruct (started room).
    { intros [= <- <-] Hin. apply list_elem_of_singleton in Hin.
      by simplify_eq. }
    case_bool_decide.
    { intros [= <- <-] Hin. apply list_elem_of_singleton in Hin.
      by simplify_eq. }
    intros [= <- <-] Hin. apply elem_of_cons in Hin as [?|Hin]; [done|].
    by apply broadcast_no_error in Hin.
  - apply Hin_room, start_game_room_refusal.
  - apply Hin_room, play_card_room_refusal.
  - apply Hin_room, pass_room_refusal.
  - apply Hin_room, restart_room_refusal.
  - intros [= <- <-] Hin. by apply elem_of_nil in Hin.
Qed.

(** ** The session *)

Lemma session_run :
  run server0 session
  = Some (st_session, default [] (snd <$> run server0 session)).
Proof. by vm_compute. Qed.

Lemma session_reachable : reachable st_session.
Proof. eexists _, _. apply session_run. Qed.

Lemma session_connected : reachable_connected st_session.
Proof.
  eexists _, _. split; [|apply session_run]. repeat constructor.
Qed.

Lemma session_room : rooms st_session !! "K7QX2M" = Some room_session.
Proof. by vm_compute. Qed.

Lemma session_in_progress :
  started room_session = true ∧ gameOver room_session = false.
Proof. by vm_compute. Qed.

Lemma run_never_throws_witness : is_Some (run server0 session).
Proof.
  apply run_never_throws. unfold session.
  repeat (apply Forall_cons; split); try apply Forall_nil; try exact I;
    cbn; apply (bool_decide_unpack _); by vm_compute.
Defined.

Lemma reachable_seats_witness :
  players room_session ≠ [] ∧ length (players room_session) ≤ 4.
Proof.
  apply (reachable_seats st_session "K7QX2M" room_session);
    [apply session_reachable|apply session_room].
Defined.

Lemma reachable_hands_witness :
  NoDup (all_hands room_session) ∧
  ∀ c, c ∈ all_hands room_session → suit c ∈ suits ∧ (7 ≤ value c ≤ 14)%Z.
Proof.
  apply (reachable_hands st_session "K7QX2M" room_session);
    [apply session_reachable|apply session_room].
Defined.

Lemma reachable_board_witness :
  "♦" ∈ suits ∧ low (mkRun 7 7) = 7%Z ∧ (7 ≤ high (mkRun 7 7) ≤ 14)%Z.
Proof.
  apply (reachable_board st_session "K7QX2M" "♦" room_session (mkRun 7 7));
    [apply session_reachable|apply session_room|by vm_compute].
Defined.

Lemma reachable_cards_above_runs_witness :
  ∃ p, players room_session !! 0 = Some p ∧
       (high (mkRun 7 7) < value (mkCard "♠" 8))%Z ∧ (high (mkRun 7 7) < 14)%Z.
Proof.
  destruct (players room_session !! 0) as [p|] eqn:Hp;
    [|vm_compute in Hp; discriminate Hp].
  exists p. split; [done|].
  apply (reachable_cards_above_runs st_session "K7QX2M" room_session p);
    [apply session_reachable|apply session_room| | |by vm_compute].
  - by eapply list_elem_of_lookup_2.
  - vm_compute in Hp. injection Hp as <-. cbn. apply list_elem_of_here.
Defined.

Lemma reachable_lobby_witness :
  turn (fresh_room "c1" "Ann") = 0 ∧
  board (fresh_room "c1" "Ann") = initBoard ∧
  gameOver (fresh_room "c1" "Ann") = false ∧
  ∀ p, p ∈ players (fresh_room "c1" "Ann") → hand p = [].
Proof.
  apply (reachable_lobby st_lobby "K7QX2M" (fresh_room "c1" "Ann"));
    [|by vm_compute|done].
  exists [Message env0 "c1" (create_room "Ann")], 
    (default [] (snd <$> run server0 [Message env0 "c1" (create_room "Ann")])).
  by vm_compute.
Defined.

Lemma reachable_turn_witness :
  ∃ p, players room_session !! turn room_session = Some p ∧
       currentPlayerId room_session = Some (id p).
Proof.
  apply (reachable_turn st_session "K7QX2M" room_session);
    [apply session_reachable|apply session_room|by vm_compute|by vm_compute].
Defined.

Lemma reachable_out_witness :
  ∃ p, players room_session !! 1 = Some p ∧ (isOut p = true ↔ hand p = []).
Proof.
  destruct (players room_session !! 1) as [p|] eqn:Hp;
    [|vm_compute in Hp; discriminate Hp].
  exists p. split; [done|].
  apply (reachable_out st_session "K7QX2M" room_session p);
    [apply session_reachable|apply session_room|by vm_compute|].
  by eapply list_elem_of_lookup_2.
Defined.

Lemma connected_turn_active_witness :
  ∃ p, players room_session !! turn room_session = Some p ∧
       isOut p = false ∧ hand p ≠ [].
Proof.
  apply (connected_turn_active st_session "K7QX2M" room_session);
    [apply session_connected|apply session_room|by vm_compute|by vm_compute].
Defined.

Lemma connected_pack_witness :
  (∃ p, p ∈ players room_session ∧ mkCard "♥" 10 ∈ hand p) ∨
  (∃ r, board room_session !! "♥" = Some r ∧ (10 ≤ high r)%Z).
Proof.
  apply (connected_pack st_session "K7QX2M" room_session (mkCard "♥" 10));
    [apply session_connected|apply session_room|by vm_compute| |cbn; lia].
  cbn. apply (bool_decide_unpack _). by vm_compute.
Defined.

Lemma connected_no_deadlock_witness :
  ∃ p c, p ∈ players room_session ∧
         c ∈ getValidMoves (hand p) (board room_session).
Proof.
  apply (connected_no_deadlock st_session "K7QX2M" room_session);
    [apply session_connected|apply session_room|by vm_compute|by vm_compute].
Defined.

Lemma dealCards_round_robin_witness :
  ∃ hands, dealCards build_deck 3 = Some hands ∧ length hands = 3 ∧
    (∀ i, i < 3 → hands !! i = Some (nth_hand build_deck 3 i)) ∧
    concat hands ≡ₚ build_deck.
Proof. apply (dealCards_round_robin build_deck 3). lia. Defined.

Lemma dealCards_sizes_witness :
  ∃ hands h0 h2, dealCards build_deck 3 = Some hands ∧
    hands !! 0 = Some h0 ∧ hands !! 2 = Some h2 ∧
    length h0 = 11 ∧ length h2 ≤ length h0 ≤ length h2 + 1.
Proof.
  destruct (dealCards build_deck 3) as [hands|] eqn:Hdeal;
    [|vm_compute in Hdeal; discriminate Hdeal].
  destruct (hands !! 0) as [h0|] eqn:H0;
    [|vm_compute in Hdeal; injection Hdeal as <-; discriminate H0].
  destruct (hands !! 2) as [h2|] eqn:H2;
    [|vm_compute in Hdeal; injection Hdeal as <-; discriminate H2].
  exists hands, h0, h2. split_and!; try done;
    destruct (dealCards_sizes build_deck 3 hands 0 2 h0 h2 Hdeal H0 H2)
      as [Hsize Hdiff]; try lia; try done.
Defined.

Lemma dealCards_no_players_witness : dealCards build_deck 0 = None.
Proof. by apply (dealCards_no_players build_deck). Defined.

Lemma no_play_outside_game_witness :
  on_message env0 st_lobby "c1" (play_card (mkCard "♠" 7))
  = Some (st_lobby, []) ∧
  on_message env0 st_lobby "c1" pass = Some (st_lobby, []).
Proof.
  apply (no_play_outside_game env0 st_lobby "c1" "K7QX2M"
           (fresh_room "c1" "Ann")); [reflexivity|reflexivity|by left].
Defined.

Lemma pass_of_current_player_witness :
  ∃ room',
    on_message env0 st_game "c2" pass
    = Some (mkServer (<["K7QX2M" := room']> (rooms st_game)) (ws_roomId st_game),
            sendGameState env0 room') ∧
    players room'
    = <[1 := mkPlayer "c2" "Bob" [mkCard "♥" 9; mkCard "♣" 8] true false]>
        (players room_game) ∧
    board room' = board room_game ∧ turn room' < 2 ∧
    started room' = true ∧ gameOver room' = false.
Proof.
  destruct (pass_of_current_player env0 st_game "c2" "K7QX2M" room_game bob)
    as [_ Hpass]; try reflexivity.
  apply Hpass. by vm_compute.
Defined.

Lemma play_card_accepted_witness :
  ∃ room',
    on_message env0 st_session "c1" (play_card (mkCard "♠" 8))
    = Some (mkServer (<["K7QX2M" := room']> (rooms st_session))
              (ws_roomId st_session),
            (if decide (hand (played player_session (mkCard "♠" 8)) = [])
             then broadcast env0 room' (player_out (name player_session))
             else [])
            ++ sendGameState env0 room') ∧
    (∃ r, board room' !! "♠" = Some r ∧ high r = 8%Z).
Proof.
  assert (mkCard "♠" 8
          ∈ getValidMoves (hand player_session) (board room_session)) as Hcard.
  { vm_compute. apply list_elem_of_here. }
  assert (ws_roomId st_session !! "c1" = Some "K7QX2M") as Hws
    by (by vm_compute).
  assert (players room_session !! turn room_session = Some player_session)
    as Hplayer by (by vm_compute).
  assert (id player_session = "c1") as Hid by (by vm_compute).
  destruct session_in_progress as [Hstarted Hover].
  destruct (play_card_accepted env0 st_session "c1" "K7QX2M" room_session
              player_session (mkCard "♠" 8) Hws session_room Hstarted Hover
              Hplayer Hid Hcard)
    as (room' & Hrun & Hrank & _).
  exists room'. split; [exact Hrun|exact Hrank].
Defined.

Lemma deal_needs_host_witness :
  on_message env0 st_game "c2" start_game
  = Some (st_game, [("c2", error err_host_only)]) ∧
  on_message env0 st_game "c2" restart = Some (st_game, []).
Proof.
  destruct (deal_needs_host env0 st_game "c2" "K7QX2M" room_game ann)
    as [Hother _]; try reflexivity.
  apply Hother. discriminate.
Defined.

Lemma on_close_leaves_witness :
  ∃ room', rooms (on_close env0 st_game "c2").1 !! "K7QX2M" = Some room' ∧
    players room' = [ann] ∧ turn room' < length (players room').
Proof.
  destruct (on_close_leaves env0 st_game "c2" "K7QX2M" room_game)
    as (_ & _ & Hstay); try reflexivity.
  destruct Hstay as (room' & Hroom' & Hps & _ & _ & _ & _ & _ & Hturn).
  { by vm_compute. }
  exists room'. split; [done|]. split; [by rewrite Hps|].
  by apply Hturn.
Defined.

Lemma sendGameState_private_witness :
  ∃ p gs, p ∈ players room_game ∧ id p = "c1" ∧ readyState env0 "c1" = 1 ∧
    game_state (state_for room_game ann) = game_state gs ∧
    gs_myHand gs = hand p ∧
    (∀ c, c ∈ gs_validMoves gs → c ∈ hand p) ∧
    (gs_validMoves gs ≠ [] →
     started room_game = true ∧ currentPlayerId room_game = Some "c1").
Proof.
  apply (sendGameState_private env0 room_game "c1"
           (game_state (state_for room_game ann))).
  unfold sendGameState, room_game. cbn [players].
  rewrite filter_cons_True by done. apply list_elem_of_here.
Defined.

Lemma deal_first_player_witness :
  ∃ room' p, deal env0 room_game = Some room' ∧
    players room' !! turn room' = Some p ∧ mkCard "♠" 7 ∈ hand p.
Proof.
  assert (is_Some (deal env0 room_game)) as [room' Hdeal]
    by (apply deal_total; discriminate).
  destruct (deal_first_player env0 room_game room' Hdeal)
    as (p & Hp & Hheld & _).
  exists room', p. split; [exact Hdeal|]. split; [exact Hp|exact Hheld].
Defined.

Lemma getValidMoves_shape_witness :
  getValidMoves (hand ann) (board room_game) `sublist_of` hand ann.
Proof. apply (getValidMoves_shape (hand ann) (board room_game)). Defined.

Lemma createDeck_reaches_witness :
  ∃ rnd, createDeck rnd = reverse build_deck.
Proof. apply createDeck_reaches. apply reverse_Permutation. Defined.

Lemma solo_reachable : reachable st_solo.
Proof.
  exists solo_session, (default [] (snd <$> run server0 solo_session)).
  by vm_compute.
Qed.

Lemma reachable_over_witness :
  gameOver room_solo = true ∧ loser room_solo = Some last_player ∧
  started room_solo = true ∧ length (active room_solo) ≤ 1.
Proof.
  assert (gameOver room_solo = true) as Hover by (by vm_compute).
  split; [exact Hover|]. split; [by vm_compute|].
  apply (reachable_over st_solo "K7QX2M" room_solo);
    [apply solo_reachable|by vm_compute|exact Hover].
Defined.

Lemma play_card_takes_one_card_witness :
  ∃ st' sent room',
    on_message env0 st_session "c1" (play_card (mkCard "♠" 8))
    = Some (st', sent) ∧
    rooms st' !! "K7QX2M" = Some room' ∧
    length (all_hands room') + 1 = length (all_hands room_session) ∧
    ∀ c, c ∈ all_hands room' ↔ c ∈ all_hands room_session ∧ c ≠ mkCard "♠" 8.
Proof.
  assert (mkCard "♠" 8
          ∈ getValidMoves (hand player_session) (board room_session)) as Hcard.
  { vm_compute. apply list_elem_of_here. }
  assert (ws_roomId st_session !! "c1" = Some "K7QX2M") as Hws
    by (by vm_compute).
  assert (players room_session !! turn room_session = Some player_session)
    as Hplayer by (by vm_compute).
  assert (id player_session = "c1") as Hid by (by vm_compute).
  destruct session_in_progress as [Hstarted Hover].
  exact (play_card_takes_one_card env0 st_session "c1" "K7QX2M" room_session
           player_session (mkCard "♠" 8) session_reachable Hws session_room
           Hstarted Hover Hplayer Hid Hcard).
Defined.

Lemma error_is_all_witness :
  ∃ st' sent,
    on_message env0 st_game "c2" (play_card (mkCard "♥" 9)) = Some (st', sent) ∧
    st' = st_game ∧ sent = [("c2", error err_invalid_move)].
Proof.
  destruct (on_message env0 st_game "c2" (play_card (mkCard "♥" 9)))
    as [[st' sent]|] eqn:Hrun; [|vm_compute in Hrun; discriminate Hrun].
  exists st', sent. split; [reflexivity|].
  assert (("c2", error err_invalid_move) ∈ sent) as Hin.
  { pose proof Hrun as Hsent. vm_compute in Hsent.
    injection Hsent as _ <-. apply list_elem_of_here. }
  destruct (error_is_all env0 st_game st' "c2" (play_card (mkCard "♥" 9))
              sent "c2" err_invalid_move Hrun Hin) as (_ & Hst & Hsent).
  split; [exact Hst|exact Hsent].
Defined.
